(** * myargs: a shallow embedding of [myargs.h] and its parsing contract

    The header declares a table of argument specifications (flags, keyword
    arguments, positional arguments), scans [argv] once, writes the values
    it finds into the table, checks the required entries and fills in the
    defaults; three getters read the table back by name.

    Conventions of the embedding.
    - A [char *] that may be [NULL] is an [option string]; a [char *] that
      the code dereferences unconditionally is a [string].  C strings hold
      no NUL character, so the strings of this file are meant NUL-free.
    - The array [parser->arguments] of length [parser->count] is a list; the
      loops [for (j = 0; j < parser->count; j++)] are structural recursions
      over it, a [break] being the branch that stops recursing.
    - [strdup] of a string returns a fresh copy, that is the same text.
      [strdup(NULL)] is not defined by the C library; the two behaviours
      met in practice (a null result, or a fault) are the two values of
      [Libc], and every function that reaches [strdup] takes the library
      as a parameter.  A run that faults yields [None] ([Undefined] at the
      level of [parse_args]).
    - Allocation failure ([malloc], [realloc], [strdup] out of memory) is
      not modelled. *)

From Stdlib Require Import ZArith Ascii.
From stdpp Require Import base option list strings pretty.

(** ** Structures *)

(** [enum Type]; the name [Type] is reserved, hence the underscore. *)
Inductive Type_ : Set :=
| FLAG   (* a boolean switch *)
| KWARG  (* a named argument with a value *)
| ARG.   (* a positional argument *)

#[global] Instance Type__eq_dec : EqDecision Type_.
Proof. solve_decision. Defined.

(** [struct Argument].  [count] is written by [add_arg] only: [add_kwarg]
    and [add_flag] leave it as [realloc] returned it, which is [None]. *)
Record Argument : Type := mkArgument {
  name : string;
  sym : ascii;
  required : Z;
  help : option string;
  type : Type_;
  count : option Z;
  def_val : option string;
  value : option string
}.

(** [struct ArgumentParser]; its [count] field is the length of
    [arguments] at every point of the code, see [parser_count]. *)
Record ArgumentParser : Type := mkParser {
  program : string;
  usage : string;
  epilog : string;
  description : string;
  arguments : list Argument
}.

Definition parser_count (parser : ArgumentParser) : nat :=
  length (arguments parser).

(** [parser->arguments[j].value = v] *)
Definition set_value (a : Argument) (v : option string) : Argument :=
  {| name := name a; sym := sym a; required := required a; help := help a;
     type := type a; count := count a; def_val := def_val a; value := v |}.

Definition with_arguments (parser : ArgumentParser) (l : list Argument)
  : ArgumentParser :=
  {| program := program parser; usage := usage parser;
     epilog := epilog parser; description := description parser;
     arguments := l |}.

(** What [strdup] does with a null pointer. *)
Inductive Libc : Set :=
| NullTolerant   (* strdup(NULL) returns NULL *)
| NullFaulting.  (* strdup(NULL) faults: the behaviour is undefined *)

(** [EXIT_FAILURE] of <stdlib.h>. *)
Definition EXIT_FAILURE : Z := 1.

(** The character written by ["\n"]. *)
Definition newline : string := String "010"%char EmptyString.

(** How a call of [parse_args] ends. *)
Inductive Outcome : Type :=
| Returned (parser : ArgumentParser) (stdout : string)
| Exited (status : Z) (parser : ArgumentParser) (stdout stderr : string)
| Undefined.

(** ** Declarations *)

(** [sym ? sym : '0'] *)
Definition stored_sym (c : ascii) : ascii :=
  if decide (c = "000"%char) then "0"%char else c.

(** [parser->arguments[parser->count] = ...; parser->count++] *)
Definition append_argument (parser : ArgumentParser) (a : Argument)
  : ArgumentParser :=
  with_arguments parser (arguments parser ++ [a]).

Definition add_arg (parser : ArgumentParser) (c : ascii) (n : string)
    (req : Z) (nargs : Z) (default_value : option string)
    (h : option string) : ArgumentParser :=
  append_argument parser
    {| name := n; sym := stored_sym c; required := req; help := h;
       type := ARG; count := Some nargs; def_val := default_value;
       value := None |}.

Definition add_kwarg (parser : ArgumentParser) (c : ascii) (n : string)
    (req : Z) (default_value : option string) (h : option string)
  : ArgumentParser :=
  append_argument parser
    {| name := n; sym := stored_sym c; required := req; help := h;
       type := KWARG; count := None; def_val := default_value;
       value := None |}.

Definition add_flag (parser : ArgumentParser) (c : ascii) (n : string)
    (h : option string) : ArgumentParser :=
  append_argument parser
    {| name := n; sym := stored_sym c; required := 0; help := h;
       type := FLAG; count := None; def_val := None; value := None |}.

Definition new_parser (prog use descr epi : string) (add_help : Z)
  : ArgumentParser :=
  let parser :=
    {| program := prog; usage := use; epilog := epi; description := descr;
       arguments := [] |} in
  if decide (add_help = 0%Z) then parser
  else add_flag parser "h"%char "help" (Some "Shows this help Menu").

(** [init_parser] fills a caller-owned structure with the same contents. *)
Definition init_parser (prog use descr epi : string) (add_help : Z)
  : ArgumentParser :=
  new_parser prog use descr epi add_help.

(** ** Token splitting *)

(** [value = strchr(arg, '='); if (value) { *value = '\0'; value++; }]:
    the text before the first ['='] and, when there is one, the text
    after it. *)
Fixpoint split_eq (arg : string) : string * option string :=
  match arg with
  | EmptyString => (EmptyString, None)
  | String c rest =>
      if decide (c = "="%char) then (EmptyString, Some rest)
      else let '(a, v) := split_eq rest in (String c a, v)
  end.

(** The three branches of the loop body: [strncmp(argv[i], "--", 2) == 0],
    else [strncmp(argv[i], "-", 1) == 0], else the rest.  [body] is
    [argv[i] + 2], respectively [argv[i] + 1]. *)
Inductive Shape : Type :=
| Long (body : string)
| Short (body : string)
| Bare.

Definition shape (tok : string) : Shape :=
  match tok with
  | String "-" (String "-" body) => Long body
  | String "-" body => Short body
  | _ => Bare
  end.

(** ** The parse pass *)

Section Parse.

Variable libc : Libc.

(** [strdup]; [None] is the fault. *)
Definition strdup (s : option string) : option (option string) :=
  match s with
  | Some t => Some (Some t)
  | None =>
      match libc with
      | NullTolerant => Some None
      | NullFaulting => None
      end
  end.

(** First loop of the long and bare branches (lines 384-391, 454-461): the
    first entry with the name receives a copy of the value, whatever its
    type. *)
Fixpoint assign_by_name (args : list Argument) (arg : string)
    (v : option string) : option (list Argument) :=
  match args with
  | [] => Some []
  | a :: rest =>
      if decide (name a = arg) then
        w ← strdup v; Some (set_value a w :: rest)
      else
        rest' ← assign_by_name rest arg v; Some (a :: rest')
  end.

(** Second loop of the long and bare branches (lines 392-404, 462-474):
    the first entry with the name that is a flag or a keyword argument. *)
Fixpoint assign_option_by_name (args : list Argument) (arg : string)
    (v : option string) : option (list Argument) :=
  match args with
  | [] => Some []
  | a :: rest =>
      if decide (name a = arg ∧ type a = FLAG) then
        Some (set_value a (Some "true") :: rest)
      else if decide (name a = arg ∧ type a = KWARG) then
        w ← strdup v; Some (set_value a w :: rest)
      else
        rest' ← assign_option_by_name rest arg v; Some (a :: rest')
  end.

(** Inner loop of the short branch (lines 424-436) for one character. *)
Fixpoint assign_by_sym (args : list Argument) (c : ascii)
    (v : option string) : option (list Argument) :=
  match args with
  | [] => Some []
  | a :: rest =>
      if decide (sym a = c ∧ type a = FLAG) then
        Some (set_value a (Some "true") :: rest)
      else if decide (sym a = c ∧ type a = KWARG) then
        w ← strdup v; Some (set_value a w :: rest)
      else
        rest' ← assign_by_sym rest c v; Some (a :: rest')
  end.

(** Outer loop of the short branch (lines 422-437): every character of the
    cluster, left to right. *)
Fixpoint assign_cluster (args : list Argument) (arg : string)
    (v : option string) : option (list Argument) :=
  match arg with
  | EmptyString => Some args
  | String c rest =>
      args' ← assign_by_sym args c v; assign_cluster args' rest v
  end.

(** One iteration of the loop over [argv] (lines 371-475).  The state is
    the table and the text written to standard output so far. *)
Definition parse_token (st : list Argument * string) (tok : string)
  : option (list Argument * string) :=
  let '(args, out) := st in
  match shape tok with
  | Long body =>
      let '(arg, v) := split_eq body in
      args1 ← assign_by_name args arg v;
      args2 ← assign_option_by_name args1 arg v;
      Some (args2, out)
  | Short body =>
      let '(arg, v) := split_eq body in
      args1 ← assign_cluster args arg v;
      Some (args1, out)
  | Bare =>
      let '(arg, v) := split_eq tok in
      let out' := out +:+ arg in
      args1 ← assign_by_name args arg v;
      args2 ← assign_option_by_name args1 arg v;
      Some (args2, out')
  end.

(** The loop [for (i = 1; i < argc; i++)] over the tokens after
    [argv[0]]. *)
Fixpoint scan_tokens (st : list Argument * string) (toks : list string)
  : option (list Argument * string) :=
  match toks with
  | [] => Some st
  | tok :: rest => st' ← parse_token st tok; scan_tokens st' rest
  end.

End Parse.

(** The closing loop (lines 478-489).  It stops at the first required
    entry without a value and returns the table as it stands together with
    that entry's name; otherwise every entry without a value takes its
    default. *)
Fixpoint check_required (args : list Argument)
  : list Argument * option string :=
  match args with
  | [] => ([], None)
  | a :: rest =>
      if decide (required a ≠ 0%Z ∧ value a = None) then
        (a :: rest, Some (name a))
      else
        let a' :=
          if decide (value a = None) then set_value a (def_val a) else a in
        let '(rest', missing) := check_required rest in
        (a' :: rest', missing)
  end.

(** [parse_args]; [argc] is the length of [argv]. *)
Definition parse_args (libc : Libc) (parser : ArgumentParser)
    (argv : list string) : Outcome :=
  match scan_tokens libc (arguments parser, "") (tail argv) with
  | None => Undefined
  | Some (args, out) =>
      match check_required args with
      | (args', Some n) =>
          Exited EXIT_FAILURE (with_arguments parser args') out
            ("Missing required argument: " +:+ n +:+ newline)
      | (args', None) => Returned (with_arguments parser args') out
      end
  end.

(** ** Getters *)

Fixpoint lookup_arg (args : list Argument) (n : string) : option string :=
  match args with
  | [] => None
  | a :: rest =>
      if decide (name a = n) then
        if decide (type a = ARG) then
          match value a with Some v => Some v | None => def_val a end
        else None
      else lookup_arg rest n
  end.

Fixpoint lookup_kwarg (args : list Argument) (n : string) : option string :=
  match args with
  | [] => None
  | a :: rest =>
      if decide (name a = n) then
        if decide (type a = KWARG) then
          match value a with Some v => Some v | None => def_val a end
        else None
      else lookup_kwarg rest n
  end.

Fixpoint lookup_flag (args : list Argument) (n : string) : Z :=
  match args with
  | [] => 0
  | a :: rest =>
      if decide (name a = n) then
        if decide (type a = FLAG) then
          match value a with Some _ => 1 | None => 0 end
        else 0
      else lookup_flag rest n
  end.

Definition get_arg (parser : ArgumentParser) (n : string) : option string :=
  lookup_arg (arguments parser) n.

Definition get_kwarg (parser : ArgumentParser) (n : string)
  : option string :=
  lookup_kwarg (arguments parser) n.

Definition get_flag (parser : ArgumentParser) (n : string) : Z :=
  lookup_flag (arguments parser) n.

(** ** The declarative reading of the loops

    Every matching loop of [parse_args] is "find the first entry that
    satisfies a test, write its value, stop".  The definitions below say
    so with [list_find] and [<[i:=x]>]; the refinement lemmas further down
    relate them to the loops as they are written. *)

(** Tests of the three matching loops. *)
Definition named (arg : string) (a : Argument) : Prop := name a = arg.

Definition named_option (arg : string) (a : Argument) : Prop :=
  name a = arg ∧ (type a = FLAG ∨ type a = KWARG).

Definition symbol_option (c : ascii) (a : Argument) : Prop :=
  sym a = c ∧ (type a = FLAG ∨ type a = KWARG).

#[global] Instance named_dec arg a : Decision (named arg a).
Proof. unfold named. apply _. Defined.

#[global] Instance named_option_dec arg a : Decision (named_option arg a).
Proof. unfold named_option. apply _. Defined.

#[global] Instance symbol_option_dec c a : Decision (symbol_option c a).
Proof. unfold symbol_option. apply _. Defined.

(** Index of the entry a loop stops at, if any. *)
Definition hit_name (args : list Argument) (arg : string) : option nat :=
  fst <$> list_find (named arg) args.

Definition hit_option_name (args : list Argument) (arg : string)
  : option nat :=
  fst <$> list_find (named_option arg) args.

Definition hit_sym (args : list Argument) (c : ascii) : option nat :=
  fst <$> list_find (symbol_option c) args.

(** The value the flag-or-keyword loops write into the entry they stop at. *)
Definition option_write (libc : Libc) (v : option string) (a : Argument)
  : option (option string) :=
  if decide (type a = FLAG) then Some (Some "true") else strdup libc v.

(** The token without its ["--"] or ["-"] prefix. *)
Definition strip (tok : string) : string :=
  match shape tok with
  | Long body => body
  | Short body => body
  | Bare => tok
  end.

Definition is_short (tok : string) : bool :=
  match shape tok with Short _ => true | _ => false end.

Definition is_bare (tok : string) : bool :=
  match shape tok with Bare => true | _ => false end.

(** The name or the cluster of the token, and the value after ['=']. *)
Definition token_key (tok : string) : string := fst (split_eq (strip tok)).

Definition token_value (tok : string) : option string :=
  snd (split_eq (strip tok)).

(** [matches args tok i]: token [tok] writes the value of entry [i]. *)
Definition matches (args : list Argument) (tok : string) (i : nat) : Prop :=
  if is_short tok then
    Exists (λ c, hit_sym args c = Some i)
           (String.list_ascii_of_string (token_key tok))
  else
    hit_name args (token_key tok) = Some i
    ∨ hit_option_name args (token_key tok) = Some i.

#[global] Instance matches_dec args tok i : Decision (matches args tok i).
Proof. unfold matches. destruct (is_short tok); apply _. Defined.

(** The value a token writes into an entry it matches. *)
Definition token_writes (tok : string) (a : Argument) : option string :=
  if decide (type a = FLAG) then Some "true" else token_value tok.

(** What a bare token adds to standard output. *)
Definition echo (tok : string) : string :=
  if is_bare tok then token_key tok else "".


(** [strdup] is given a string, or a library that accepts a null
    pointer. *)
Definition safe (libc : Libc) (v : option string) : Prop :=
  libc = NullTolerant ∨ is_Some v.

(** The characters of a name hold no ['=']. *)
Definition plain (n : string) : Prop :=
  "="%char ∉ String.list_ascii_of_string n.

(** [rewrites S w l l']: [l'] is [l] with the value of every entry whose
    index is in [S] replaced by [w] of that entry. *)
Definition rewrites (S : nat → Prop) (w : Argument → option string)
    (l l' : list Argument) : Prop :=
  length l' = length l ∧
  ∀ i a, l !! i = Some a →
    (S i → l' !! i = Some (set_value a (w a))) ∧ (¬ S i → l' !! i = Some a).

(** Two tables with the same declarations, whatever the values. *)
Definition same_specs (l l' : list Argument) : Prop :=
  length l' = length l ∧
  ∀ i a, l !! i = Some a → ∃ w, l' !! i = Some (set_value a w).

(** A test that does not read the value. *)
Definition blind (P : Argument → Prop) : Prop :=
  ∀ a w, P (set_value a w) ↔ P a.

(** The default substitution of the closing loop on one entry. *)
Definition fill_default (a : Argument) : Argument :=
  if decide (value a = None) then set_value a (def_val a) else a.

(** The test of the closing loop. *)
Definition missing (a : Argument) : Prop :=
  required a ≠ 0%Z ∧ value a = None.

#[global] Instance missing_dec a : Decision (missing a).
Proof. unfold missing. apply _. Defined.

(** What a getter returns from the entry it found. *)
Definition value_or_default (a : Argument) : option string :=
  match value a with Some v => Some v | None => def_val a end.

(** ** Help output

    [MYARGS_THEME_HELP] is defined by the header itself (line 51), so the
    colour macros below are the ones in force.  Each function returns the
    text it writes to standard output. *)

(** The character written by ["\e"]. *)
Definition ESC : string := String "027"%char EmptyString.

Definition FT : string := ESC +:+ "[0;30m".
Definition NT : string := ESC +:+ "[0;30m".
Definition CC : string := ESC +:+ "[0;34m".
Definition NC : string := ESC +:+ "[0;30m".
Definition HT : string := ESC +:+ "[0;30m".

(** [s ? s : d] on a string pointer. *)
Definition or_text (s : option string) (d : string) : string :=
  match s with Some t => t | None => d end.

(** [c ? c : d] on a character. *)
Definition or_char (c d : ascii) : ascii :=
  if decide (c = "000"%char) then d else c.

(** The three [printf] calls of [print_arg_help] on entry [a]. *)
Definition arg_help_text (a : Argument) : string :=
  ("-" +:+ String (or_char (sym a) " "%char) "" +:+ " --" +:+ name a +:+ " ")
  +:+ ("(required: " +:+ pretty (required a) +:+ " , ["
       +:+ or_text (def_val a) "None" +:+ "] ) ")
  +:+ ("= " +:+ or_text (help a) "No description" +:+ " " +:+ newline).

(** The two [printf] calls of [print_flag_help]. *)
Definition flag_help_text (a : Argument) : string :=
  ("-" +:+ FT +:+ String (or_char (sym a) "000"%char) "" +:+ NC +:+ "--"
   +:+ NT +:+ name a +:+ " " +:+ NC)
  +:+ (CC +:+ ":" +:+ NC +:+ HT +:+ or_text (help a) "" +:+ NC +:+ newline).

(** The four [printf] calls of [print_kwarg_help]. *)
Definition kwarg_help_text (a : Argument) : string :=
  ("-" +:+ FT +:+ String (or_char (sym a) "000"%char) "" +:+ NC +:+ "--"
   +:+ NT +:+ name a +:+ " " +:+ NC)
  +:+ (CC +:+ ":" +:+ NC +:+ HT +:+ or_text (help a) "" +:+ NC)
  +:+ ("[" +:+ NC +:+ HT +:+ or_text (help a) "" +:+ NC)
  +:+ ("[" +:+ NC +:+ "required " +:+ NC +:+ CC +:+ ": " +:+ NC +:+ " "
       +:+ pretty (required a) +:+ " , [" +:+ or_text (def_val a) ""
       +:+ "] ) ").

(** [print_arg_help(parser, i)] and its two siblings read
    [parser->arguments[i]]; an index outside the array is [None]. *)
Definition print_arg_help (parser : ArgumentParser) (i : nat)
  : option string :=
  arg_help_text <$> arguments parser !! i.

Definition print_flag_help (parser : ArgumentParser) (i : nat)
  : option string :=
  flag_help_text <$> arguments parser !! i.

Definition print_kwarg_help (parser : ArgumentParser) (i : nat)
  : option string :=
  kwarg_help_text <$> arguments parser !! i.

(** The body of the loop of [print_help] on one entry. *)
Definition help_text (a : Argument) : string :=
  match type a with
  | FLAG => flag_help_text a
  | KWARG => kwarg_help_text a
  | ARG => arg_help_text a
  end.

(** The loop of [print_help] over the entries. *)
Fixpoint print_entries (args : list Argument) : string :=
  match args with
  | [] => ""
  | a :: rest => help_text a +:+ print_entries rest
  end.

(** [print_help]; a null [parser] is [None].  The four switches are
    parameters the body never reads. *)
Definition print_help (parser : option ArgumentParser)
    (description usage epilog group : Z) : string :=
  match parser with
  | None => ""
  | Some p => print_entries (arguments p)
  end.

(** The entry a short character reaches is a keyword argument. *)
Definition reaches_kwarg (args : list Argument) (c : ascii) : Prop :=
  match list_find (symbol_option c) args with
  | Some (_, a) => type a = KWARG
  | None => False
  end.

#[global] Instance reaches_kwarg_dec args c : Decision (reaches_kwarg args c).
Proof.
  unfold reaches_kwarg.
  destruct (list_find (symbol_option c) args) as [[i a]|]; apply _.
Defined.

(** ** Sample tables *)

Definition bare_parser : ArgumentParser := new_parser "p" "u" "d" "e" 0.

Definition help_parser : ArgumentParser := new_parser "p" "u" "d" "e" 1.

Definition ab_parser : ArgumentParser :=
  add_kwarg (add_kwarg help_parser "a" "alpha" 0 None None)
            "b" "beta" 1 (Some "dd") None.

Definition required_name : ArgumentParser :=
  add_kwarg bare_parser "n" "name" 1 None None.

Definition default_name : ArgumentParser :=
  add_kwarg bare_parser "n" "name" 0 (Some "dflt") None.

Definition two_unnamed_flags : ArgumentParser :=
  add_flag (add_flag bare_parser "000" "x" None) "000" "y" None.

Definition output_parser : ArgumentParser :=
  add_arg bare_parser "o" "output" 1 1 (Some "default_output.txt")
          (Some "Output file").

Definition same_name_parser : ArgumentParser :=
  add_flag (add_kwarg bare_parser "k" "mode" 0 None None) "m" "mode" None.

(** The entry of [default_name]. *)
Definition name_entry : Argument :=
  {| name := "name"; sym := "n"; required := 0; help := None; type := KWARG;
     count := None; def_val := Some "dflt"; value := None |}.

(** The entry of [required_name]. *)
Definition required_entry : Argument :=
  {| name := "name"; sym := "n"; required := 1; help := None; type := KWARG;
     count := None; def_val := None; value := None |}.

(** The entry of [output_parser]. *)
Definition output_entry : Argument :=
  {| name := "output"; sym := "o"; required := 1; help := Some "Output file";
     type := ARG; count := Some 1%Z; def_val := Some "default_output.txt";
     value := None |}.

(** The entry of [help_parser]. *)
Definition help_entry : Argument :=
  {| name := "help"; sym := "h"; required := 0;
     help := Some "Shows this help Menu"; type := FLAG; count := None;
     def_val := None; value := None |}.

(** The same flag declared twice, and its entry. *)
Definition twice_verbose : ArgumentParser :=
  add_flag (add_flag bare_parser "v" "verbose" None) "v" "verbose" None.

Definition verbose_entry : Argument :=
  {| name := "verbose"; sym := "v"; required := 0; help := None;
     type := FLAG; count := None; def_val := None; value := None |}.

(** Three flags. *)
Definition flags_abc : ArgumentParser :=
  add_flag (add_flag (add_flag bare_parser "a" "all" None) "b" "brief" None)
           "c" "colour" None.

(** ** Basic facts *)

Lemma set_value_set_value a v w : set_value (set_value a v) w = set_value a w.
Proof. reflexivity. Qed.

Lemma set_value_id a : set_value a (value a) = a.
Proof. by destruct a. Qed.

Lemma strdup_Some libc v w : strdup libc v = Some w → w = v.
Proof. destruct v, libc; naive_solver. Qed.

Lemma strdup_text libc t : strdup libc (Some t) = Some (Some t).
Proof. reflexivity. Qed.

Lemma strdup_tolerant v : strdup NullTolerant v = Some v.
Proof. by destruct v. Qed.

Lemma blind_named arg : blind (named arg).
Proof. by intros a w. Qed.

Lemma blind_named_option arg : blind (named_option arg).
Proof. by intros a w. Qed.

Lemma blind_symbol_option c : blind (symbol_option c).
Proof. by intros a w. Qed.

Lemma same_specs_refl l : same_specs l l.
Proof.
  split; [done|]. intros i a Hi. exists (value a). by rewrite set_value_id.
Qed.

Lemma same_specs_trans l1 l2 l3 :
  same_specs l1 l2 → same_specs l2 l3 → same_specs l1 l3.
Proof.
  intros [Hlen1 H1] [Hlen2 H2]. split; [congruence|].
  intros i a Hi. destruct (H1 i a Hi) as [w Hw].
  destruct (H2 i _ Hw) as [w' Hw']. exists w'. by rewrite Hw'.
Qed.

Lemma rewrites_same_specs S `{∀ i, Decision (S i)} w l l' :
  rewrites S w l l' → same_specs l l'.
Proof.
  intros [Hlen Hrw]. split; [done|]. intros i a Hi.
  destruct (Hrw i a Hi) as [Hyes Hno]. destruct (decide (S i)) as [HS|HS].
  - eexists. by apply Hyes.
  - exists (value a). rewrite set_value_id. by apply Hno.
Qed.

(** A value-blind test stops at the same index in two tables with the same
    declarations. *)
Lemma list_find_same_specs P `{∀ a, Decision (P a)} l l' i a :
  blind P → same_specs l l' → list_find P l = Some (i, a) →
  ∃ w, list_find P l' = Some (i, set_value a w).
Proof.
  intros HP [Hlen Hsame] (Hi & Ha & Hlt)%list_find_Some.
  destruct (Hsame i a Hi) as [w Hw]. exists w.
  apply list_find_Some. split_and!; [done|by apply HP|].
  intros j y Hj Hji Hy.
  destruct (lookup_lt_is_Some_2 l j) as [x Hx].
  { apply lookup_lt_Some in Hi. lia. }
  destruct (Hsame j x Hx) as [u Hu]. rewrite Hu in Hj. simplify_eq.
  apply (Hlt j x Hx Hji). by apply (HP x u).
Qed.

Lemma same_specs_sym l l' : same_specs l l' → same_specs l' l.
Proof.
  intros [Hlen Hsame]. split; [done|]. intros i b Hi.
  destruct (lookup_lt_is_Some_2 l i) as [a Ha].
  { apply lookup_lt_Some in Hi. lia. }
  destruct (Hsame i a Ha) as [w Hw]. rewrite Hw in Hi. simplify_eq.
  exists (value a). by rewrite set_value_set_value, set_value_id.
Qed.

Lemma hit_same_specs P `{∀ a, Decision (P a)} l l' :
  blind P → same_specs l l' →
  fst <$> list_find P l' = fst <$> list_find P l.
Proof.
  intros HP Hsame.
  destruct (list_find P l) as [[i a]|] eqn:E.
  - destruct (list_find_same_specs P l l' i a HP Hsame E) as [w ->]. done.
  - destruct (list_find P l') as [[i b]|] eqn:E'; [|done].
    destruct (list_find_same_specs P l' l i b HP (same_specs_sym _ _ Hsame) E')
      as [w Hw]. congruence.
Qed.

(** ** The loops refine their declarative reading *)

Lemma assign_by_name_find libc args arg v :
  assign_by_name libc args arg v =
    match list_find (named arg) args with
    | None => Some args
    | Some (i, a) => w ← strdup libc v; Some (<[i := set_value a w]> args)
    end.
Proof.
  induction args as [|b rest IH]; simpl; [done|].
  destruct (decide (name b = arg)) as [Hb|Hb].
  - by rewrite (decide_True (P := named arg b)).
  - rewrite (decide_False (P := named arg b)) by done. rewrite IH.
    destruct (list_find (named arg) rest) as [[i a]|]; simpl; [|done].
    by destruct (strdup libc v).
Qed.

Lemma assign_option_by_name_find libc args arg v :
  assign_option_by_name libc args arg v =
    match list_find (named_option arg) args with
    | None => Some args
    | Some (i, a) =>
        w ← option_write libc v a; Some (<[i := set_value a w]> args)
    end.
Proof.
  induction args as [|b rest IH]; simpl; [done|].
  destruct (decide (name b = arg ∧ type b = FLAG)) as [[Hn Ht]|Hflag].
  { rewrite (decide_True (P := named_option arg b)) by (split; auto).
    unfold option_write. by rewrite decide_True. }
  destruct (decide (name b = arg ∧ type b = KWARG)) as [[Hn Ht]|Hkw].
  { rewrite (decide_True (P := named_option arg b)) by (split; auto).
    unfold option_write. rewrite decide_False by congruence.
    by destruct (strdup libc v). }
  rewrite (decide_False (P := named_option arg b))
    by (intros [? [?|?]]; [apply Hflag|apply Hkw]; auto).
  rewrite IH.
  destruct (list_find (named_option arg) rest) as [[i a]|]; simpl; [|done].
  by destruct (option_write libc v a).
Qed.

Lemma assign_by_sym_find libc args c v :
  assign_by_sym libc args c v =
    match list_find (symbol_option c) args with
    | None => Some args
    | Some (i, a) =>
        w ← option_write libc v a; Some (<[i := set_value a w]> args)
    end.
Proof.
  induction args as [|b rest IH]; simpl; [done|].
  destruct (decide (sym b = c ∧ type b = FLAG)) as [[Hn Ht]|Hflag].
  { rewrite (decide_True (P := symbol_option c b)) by (split; auto).
    unfold option_write. by rewrite decide_True. }
  destruct (decide (sym b = c ∧ type b = KWARG)) as [[Hn Ht]|Hkw].
  { rewrite (decide_True (P := symbol_option c b)) by (split; auto).
    unfold option_write. rewrite decide_False by congruence.
    by destruct (strdup libc v). }
  rewrite (decide_False (P := symbol_option c b))
    by (intros [? [?|?]]; [apply Hflag|apply Hkw]; auto).
  rewrite IH.
  destruct (list_find (symbol_option c) rest) as [[i a]|]; simpl; [|done].
  by destruct (option_write libc v a).
Qed.

(** ** What one loop does to the table *)

Lemma option_write_Some libc v a w :
  option_write libc v a = Some w →
  w = if decide (type a = FLAG) then Some "true" else v.
Proof.
  unfold option_write. case_decide; [naive_solver|]. apply strdup_Some.
Qed.

Lemma first_hit_rewrites P `{∀ a, Decision (P a)} w l l' :
  match list_find P l with
  | None => l' = l
  | Some (i, a) => l' = <[i := set_value a (w a)]> l
  end →
  rewrites (λ k, fst <$> list_find P l = Some k) w l l'.
Proof.
  destruct (list_find P l) as [[i a]|] eqn:E; intros ->.
  - apply list_find_Some in E as (Hi & _ & _). split.
    { apply length_insert. }
    intros k b Hk. simpl. split.
    + intros [= <-]. simplify_eq.
      apply list_lookup_insert_eq. by eapply lookup_lt_Some.
    + intros Hne. rewrite list_lookup_insert_ne; [done|]. congruence.
  - split; [done|]. intros k b Hk. split; [done|auto].
Qed.

Lemma assign_by_name_rewrites libc args arg v args' :
  assign_by_name libc args arg v = Some args' →
  rewrites (λ i, hit_name args arg = Some i) (λ _, v) args args'.
Proof.
  rewrite assign_by_name_find. intros Hrun.
  apply (first_hit_rewrites (named arg)).
  destruct (list_find (named arg) args) as [[i a]|]; [|congruence].
  destruct (strdup libc v) as [w|] eqn:Hw; simplify_eq/=.
  by rewrite (strdup_Some _ _ _ Hw).
Qed.

Lemma assign_option_by_name_rewrites libc args arg v args' :
  assign_option_by_name libc args arg v = Some args' →
  rewrites (λ i, hit_option_name args arg = Some i)
           (λ a, if decide (type a = FLAG) then Some "true" else v)
           args args'.
Proof.
  rewrite assign_option_by_name_find. intros Hrun.
  apply (first_hit_rewrites (named_option arg)).
  destruct (list_find (named_option arg) args) as [[i a]|]; [|congruence].
  destruct (option_write libc v a) as [w|] eqn:Hw; simplify_eq/=.
  by rewrite (option_write_Some _ _ _ _ Hw).
Qed.

Lemma assign_by_sym_rewrites libc args c v args' :
  assign_by_sym libc args c v = Some args' →
  rewrites (λ i, hit_sym args c = Some i)
           (λ a, if decide (type a = FLAG) then Some "true" else v)
           args args'.
Proof.
  rewrite assign_by_sym_find. intros Hrun.
  apply (first_hit_rewrites (symbol_option c)).
  destruct (list_find (symbol_option c) args) as [[i a]|]; [|congruence].
  destruct (option_write libc v a) as [w|] eqn:Hw; simplify_eq/=.
  by rewrite (option_write_Some _ _ _ _ Hw).
Qed.

(** The cluster loop writes every entry that one of its characters
    reaches. *)
Lemma assign_cluster_rewrites libc arg : ∀ args v args',
  assign_cluster libc args arg v = Some args' →
  rewrites (λ i, Exists (λ c, hit_sym args c = Some i)
                        (String.list_ascii_of_string arg))
           (λ a, if decide (type a = FLAG) then Some "true" else v)
           args args'.
Proof.
  induction arg as [|c rest IH]; intros args v args' Hrun; simpl in *.
  { simplify_eq. split; [done|]. intros i a Hi. split; [|done].
    by intros ?%Exists_nil. }
  destruct (assign_by_sym libc args c v) as [args1|] eqn:Hstep;
    simplify_eq/=.
  apply assign_by_sym_rewrites in Hstep.
  pose proof (rewrites_same_specs _ _ _ _ Hstep) as Hsame.
  apply IH in Hrun. destruct Hstep as [Hlen1 H1]. destruct Hrun as [Hlen2 H2].
  split; [congruence|]. intros i a Hi.
  assert (Hhit : ∀ d, hit_sym args1 d = hit_sym args d).
  { intros d. apply hit_same_specs; [apply blind_symbol_option|done]. }
  destruct (H1 i a Hi) as [Hyes Hno].
  destruct (decide (hit_sym args c = Some i)) as [Hc|Hc].
  - specialize (Hyes Hc). destruct (H2 i _ Hyes) as [Hyes2 Hno2]. split.
    + intros _.
      destruct (decide (Exists (λ d, hit_sym args1 d = Some i)
                  (String.list_ascii_of_string rest))) as [Hr|Hr].
      * by rewrite (Hyes2 Hr).
      * by rewrite (Hno2 Hr).
    + intros Hnot. destruct Hnot. by apply Exists_cons_hd.
  - specialize (Hno Hc). destruct (H2 i _ Hno) as [Hyes2 Hno2]. split.
    + intros [?|Hr]%Exists_cons; [done|]. apply Hyes2.
      eapply Exists_impl; [exact Hr|]. intros d; simpl. by rewrite Hhit.
    + intros Hnot. apply Hno2. intros Hr. apply Hnot. apply Exists_cons_tl.
      eapply Exists_impl; [exact Hr|]. intros d; simpl. by rewrite Hhit.
Qed.

(** ** What one token does to the table and to standard output *)

Lemma append_empty_r s : s +:+ "" = s.
Proof.
  induction s as [|c s IH]; [done|].
  change (String c (s +:+ "") = String c s). by rewrite IH.
Qed.

Lemma append_assoc s t u : (s +:+ t) +:+ u = s +:+ (t +:+ u).
Proof.
  induction s as [|c s IH]; [done|].
  change (String c ((s +:+ t) +:+ u) = String c (s +:+ (t +:+ u))).
  by rewrite IH.
Qed.

Lemma hit_Some P `{∀ a, Decision (P a)} (l : list Argument) i :
  fst <$> list_find P l = Some i ↔ ∃ a, list_find P l = Some (i, a).
Proof.
  rewrite fmap_Some. split.
  - intros [[j a] [E ->]]. by exists a.
  - intros [a E]. by exists (i, a).
Qed.

(** An entry that the first loop stops at and that is a flag or a keyword
    argument is also where the second loop stops. *)
Lemma hit_name_option args arg i a :
  hit_name args arg = Some i → args !! i = Some a →
  type a = FLAG ∨ type a = KWARG →
  hit_option_name args arg = Some i.
Proof.
  intros [b (Hi & Hb & Hlt)%list_find_Some]%hit_Some Ha Ht.
  assert (b = a) as -> by congruence.
  apply hit_Some. exists a. apply list_find_Some. split_and!; [done|by split|].
  intros j y Hj Hji [Hy _]. by apply (Hlt j y).
Qed.

(** The two name loops in sequence (long and bare branches). *)
Lemma assign_named_rewrites libc args arg v args1 args2 :
  assign_by_name libc args arg v = Some args1 →
  assign_option_by_name libc args1 arg v = Some args2 →
  rewrites (λ i, hit_name args arg = Some i
                 ∨ hit_option_name args arg = Some i)
           (λ a, if decide (type a = FLAG) then Some "true" else v)
           args args2.
Proof.
  intros H1%assign_by_name_rewrites H2%assign_option_by_name_rewrites.
  pose proof (rewrites_same_specs _ _ _ _ H1) as Hsame.
  assert (Hhit : hit_option_name args1 arg = hit_option_name args arg).
  { apply hit_same_specs; [apply blind_named_option|done]. }
  destruct H1 as [Hlen1 H1]. destruct H2 as [Hlen2 H2].
  split; [congruence|]. intros i a Hi.
  destruct (H1 i a Hi) as [Hyes1 Hno1].
  destruct (decide (hit_option_name args arg = Some i)) as [Ho|Ho].
  - split; [intros _|tauto].
    destruct (decide (hit_name args arg = Some i)) as [Hn|Hn].
    + destruct (H2 i _ (Hyes1 Hn)) as [Hyes2 _].
      rewrite Hyes2 by congruence. done.
    + destruct (H2 i _ (Hno1 Hn)) as [Hyes2 _].
      rewrite Hyes2 by congruence. done.
  - destruct (decide (hit_name args arg = Some i)) as [Hn|Hn].
    + split; [intros _|tauto].
      destruct (H2 i _ (Hyes1 Hn)) as [_ Hno2].
      rewrite Hno2 by congruence.
      destruct (decide (type a = FLAG)) as [Ht|Ht]; [|done].
      destruct Ho. eapply hit_name_option; eauto.
    + split; [tauto|intros _].
      destruct (H2 i _ (Hno1 Hn)) as [_ Hno2]. apply Hno2. congruence.
Qed.

Lemma parse_token_effect libc args out tok args' out' :
  parse_token libc (args, out) tok = Some (args', out') →
  rewrites (matches args tok) (token_writes tok) args args'
  ∧ out' = out +:+ echo tok.
Proof.
  unfold parse_token, matches, token_writes, echo, token_key, token_value,
    strip, is_short, is_bare.
  destruct (shape tok) as [body|body|] eqn:Hs.
  - destruct (split_eq body) as [arg v] eqn:Hsp. simpl. intros Hrun.
    destruct (assign_by_name libc args arg v) as [args1|] eqn:H1;
      simplify_eq/=.
    destruct (assign_option_by_name libc args1 arg v) as [args2|] eqn:H2;
      simplify_eq/=.
    split; [|by rewrite append_empty_r].
    by eapply (assign_named_rewrites libc).
  - destruct (split_eq body) as [arg v] eqn:Hsp. simpl. intros Hrun.
    destruct (assign_cluster libc args arg v) as [args1|] eqn:H1;
      simplify_eq/=.
    split; [|by rewrite append_empty_r].
    by apply (assign_cluster_rewrites libc).
  - destruct (split_eq tok) as [arg v] eqn:Hsp. simpl. intros Hrun.
    destruct (assign_by_name libc args arg v) as [args1|] eqn:H1;
      simplify_eq/=.
    destruct (assign_option_by_name libc args1 arg v) as [args2|] eqn:H2;
      simplify_eq/=.
    split; [|done].
    by eapply (assign_named_rewrites libc).
Qed.

(** ** The scan over the tokens *)

#[local] Arguments parse_token : simpl never.

Lemma matches_same_specs l l' tok i :
  same_specs l l' → matches l' tok i ↔ matches l tok i.
Proof.
  intros Hsame. unfold matches, hit_sym, hit_name, hit_option_name.
  destruct (is_short tok).
  - split; intros Hex; (eapply Exists_impl; [exact Hex|]); intros c; simpl;
      by rewrite (hit_same_specs _ l l' (blind_symbol_option c) Hsame).
  - rewrite (hit_same_specs _ l l' (blind_named _) Hsame).
    by rewrite (hit_same_specs _ l l' (blind_named_option _) Hsame).
Qed.

Lemma parse_token_same_specs libc args out tok args' out' :
  parse_token libc (args, out) tok = Some (args', out') →
  same_specs args args'.
Proof.
  intros [Hrw _]%parse_token_effect.
  by apply (rewrites_same_specs (matches args tok) (token_writes tok)).
Qed.

Lemma scan_tokens_app libc st l1 l2 :
  scan_tokens libc st (l1 ++ l2) =
  st' ← scan_tokens libc st l1; scan_tokens libc st' l2.
Proof.
  revert st. induction l1 as [|t l1 IH]; intros st; simpl; [done|].
  destruct (parse_token libc st t); simpl; [apply IH|done].
Qed.

Lemma scan_tokens_same_specs libc toks : ∀ args out args' out',
  scan_tokens libc (args, out) toks = Some (args', out') →
  same_specs args args'.
Proof.
  induction toks as [|t toks IH]; intros args out args' out' Hrun;
    simpl in Hrun.
  { simplify_eq. apply same_specs_refl. }
  destruct (parse_token libc (args, out) t) as [[args1 out1]|] eqn:Hstep;
    simplify_eq/=.
  apply (same_specs_trans _ args1).
  - exact (parse_token_same_specs _ _ _ _ _ _ Hstep).
  - exact (IH _ _ _ _ Hrun).
Qed.

(** An entry that no token matches keeps its value through the scan. *)
Lemma scan_tokens_untouched libc toks : ∀ args out args' out' i a,
  scan_tokens libc (args, out) toks = Some (args', out') →
  args !! i = Some a →
  Forall (λ t, ¬ matches args t i) toks →
  args' !! i = Some a.
Proof.
  induction toks as [|t toks IH]; intros args out args' out' i a Hrun Hi Hno;
    simpl in Hrun.
  { by simplify_eq. }
  destruct (parse_token libc (args, out) t) as [[args1 out1]|] eqn:Hstep;
    simplify_eq/=.
  apply Forall_cons in Hno as [Ht Hno].
  pose proof (parse_token_same_specs _ _ _ _ _ _ Hstep) as Hsame.
  apply parse_token_effect in Hstep as [[_ Hrw] _].
  destruct (Hrw i a Hi) as [_ Hkeep].
  eapply IH; [exact Hrun|by apply Hkeep|].
  eapply Forall_impl; [exact Hno|]. intros t' Ht'; simpl.
  by rewrite (matches_same_specs _ _ _ _ Hsame).
Qed.


(** ** The closing loop *)

Lemma check_required_find args :
  check_required args =
    match list_find missing args with
    | None => (fill_default <$> args, None)
    | Some (i, a) =>
        ((fill_default <$> take i args) ++ drop i args, Some (name a))
    end.
Proof.
  induction args as [|b rest IH]; simpl; [done|].
  destruct (decide (required b ≠ 0%Z ∧ value b = None)) as [Hb|Hb].
  - by rewrite (decide_True (P := missing b)).
  - rewrite (decide_False (P := missing b)) by done. rewrite IH.
    by destruct (list_find missing rest) as [[i a]|].
Qed.

Lemma fill_default_same a : ∃ w, fill_default a = set_value a w.
Proof.
  unfold fill_default. case_decide; [by eexists|].
  exists (value a). by rewrite set_value_id.
Qed.

Lemma fill_default_valued a v : value a = Some v → fill_default a = a.
Proof. intros Hv. unfold fill_default. rewrite decide_False; congruence. Qed.

Lemma fill_default_same_specs args : same_specs args (fill_default <$> args).
Proof.
  split; [apply length_fmap|]. intros i a Hi.
  destruct (fill_default_same a) as [w Hw]. exists w.
  by rewrite list_lookup_fmap, Hi, <- Hw.
Qed.

(** The closing loop leaves an entry that has a value as it is, whether
    the loop runs to the end or stops at a missing entry. *)
Lemma check_required_keeps_valued args : ∀ i a v,
  args !! i = Some a → value a = Some v →
  (check_required args).1 !! i = Some a.
Proof.
  induction args as [|b rest IH]; intros i a v Hi Hv; [done|]. simpl.
  destruct (decide (required b ≠ 0%Z ∧ value b = None)) as [Hb|Hb]; [done|].
  destruct (check_required rest) as [rest' m] eqn:Hrest.
  destruct i as [|i]; simpl in *.
  - injection Hi as ->. by rewrite decide_False by congruence.
  - exact (IH i a v Hi Hv).
Qed.

(** ** Getters read the first entry of the name *)

Lemma lookup_kwarg_find args n :
  lookup_kwarg args n =
    match list_find (named n) args with
    | Some (_, a) =>
        if decide (type a = KWARG) then value_or_default a else None
    | None => None
    end.
Proof.
  induction args as [|b rest IH]; simpl; [done|].
  destruct (decide (name b = n)) as [Hb|Hb].
  - by rewrite (decide_True (P := named n b)).
  - rewrite (decide_False (P := named n b)) by done. rewrite IH.
    by destruct (list_find (named n) rest) as [[i a]|].
Qed.

Lemma lookup_arg_find args n :
  lookup_arg args n =
    match list_find (named n) args with
    | Some (_, a) =>
        if decide (type a = ARG) then value_or_default a else None
    | None => None
    end.
Proof.
  induction args as [|b rest IH]; simpl; [done|].
  destruct (decide (name b = n)) as [Hb|Hb].
  - by rewrite (decide_True (P := named n b)).
  - rewrite (decide_False (P := named n b)) by done. rewrite IH.
    by destruct (list_find (named n) rest) as [[i a]|].
Qed.

Lemma lookup_flag_find args n :
  lookup_flag args n =
    match list_find (named n) args with
    | Some (_, a) =>
        if decide (type a = FLAG) then
          match value a with Some _ => 1%Z | None => 0%Z end
        else 0%Z
    | None => 0%Z
    end.
Proof.
  induction args as [|b rest IH]; simpl; [done|].
  destruct (decide (name b = n)) as [Hb|Hb].
  - by rewrite (decide_True (P := named n b)).
  - rewrite (decide_False (P := named n b)) by done. rewrite IH.
    by destruct (list_find (named n) rest) as [[i a]|].
Qed.

(** The entry a getter reads, given by its index. *)
Lemma first_named args n i a :
  hit_name args n = Some i → args !! i = Some a →
  list_find (named n) args = Some (i, a).
Proof.
  intros [b Hb]%hit_Some Hi. pose proof Hb as (Hi' & _)%list_find_Some.
  congruence.
Qed.

Lemma lookup_kwarg_at args n i a :
  hit_name args n = Some i → args !! i = Some a → type a = KWARG →
  lookup_kwarg args n = value_or_default a.
Proof.
  intros Hn Hi Ht. rewrite lookup_kwarg_find, (first_named _ _ _ _ Hn Hi).
  by rewrite decide_True.
Qed.

Lemma lookup_arg_at args n i a :
  hit_name args n = Some i → args !! i = Some a → type a = ARG →
  lookup_arg args n = value_or_default a.
Proof.
  intros Hn Hi Ht. rewrite lookup_arg_find, (first_named _ _ _ _ Hn Hi).
  by rewrite decide_True.
Qed.

Lemma lookup_flag_at args n i a v :
  hit_name args n = Some i → args !! i = Some a → type a = FLAG →
  value a = Some v → lookup_flag args n = 1%Z.
Proof.
  intros Hn Hi Ht Hv. rewrite lookup_flag_find, (first_named _ _ _ _ Hn Hi).
  by rewrite decide_True, Hv.
Qed.

(** ** [parse_args] from the result of the scan *)

Lemma parse_args_returned libc parser argv args out :
  scan_tokens libc (arguments parser, "") (tail argv) = Some (args, out) →
  Forall (λ a, ¬ missing a) args →
  parse_args libc parser argv
  = Returned (with_arguments parser (fill_default <$> args)) out.
Proof.
  intros Hscan Hok. unfold parse_args. rewrite Hscan, check_required_find.
  by rewrite (proj2 (list_find_None missing args) Hok).
Qed.

Lemma parse_args_Returned_inv libc parser argv p' out :
  parse_args libc parser argv = Returned p' out →
  ∃ args, scan_tokens libc (arguments parser, "") (tail argv)
          = Some (args, out)
          ∧ Forall (λ a, ¬ missing a) args
          ∧ p' = with_arguments parser (fill_default <$> args).
Proof.
  unfold parse_args.
  destruct (scan_tokens libc (arguments parser, "") (tail argv))
    as [[args o]|] eqn:Hscan; [|done].
  rewrite check_required_find.
  destruct (list_find missing args) as [[i a]|] eqn:Hfind; [done|].
  intros [= <- <-]. exists args. split_and!; [done| |done].
  by apply (list_find_None missing).
Qed.

(** ** Tokens *)

Lemma shape_long body : shape ("--" +:+ body) = Long body.
Proof. reflexivity. Qed.

Lemma split_eq_plain n : plain n → split_eq n = (n, None).
Proof.
  unfold plain. induction n as [|c n IH]; simpl; [done|].
  intros [Hc Hn]%not_elem_of_cons. rewrite decide_False by done.
  by rewrite (IH Hn).
Qed.

Lemma split_eq_key n v : plain n → split_eq (n +:+ "=" +:+ v) = (n, Some v).
Proof.
  unfold plain. induction n as [|c n IH]; [done|].
  intros [Hc Hn]%not_elem_of_cons.
  change (split_eq (String c (n +:+ "=" +:+ v)) = (String c n, Some v)).
  simpl. rewrite decide_False by done. by rewrite (IH Hn).
Qed.

Lemma strdup_safe libc v : safe libc v → strdup libc v = Some v.
Proof. intros [->|[t ->]]; [apply strdup_tolerant|done]. Qed.

Lemma option_write_safe libc v a :
  safe libc v → is_Some (option_write libc v a).
Proof.
  intros Hs. unfold option_write. case_decide; [done|].
  by rewrite (strdup_safe _ _ Hs).
Qed.

Lemma assign_by_name_safe libc args arg v :
  safe libc v → is_Some (assign_by_name libc args arg v).
Proof.
  intros Hs. rewrite assign_by_name_find, (strdup_safe _ _ Hs).
  by destruct (list_find (named arg) args) as [[i a]|].
Qed.

Lemma assign_option_by_name_safe libc args arg v :
  safe libc v → is_Some (assign_option_by_name libc args arg v).
Proof.
  intros Hs. rewrite assign_option_by_name_find.
  destruct (list_find (named_option arg) args) as [[i a]|]; [|done].
  by destruct (option_write_safe libc v a Hs) as [w ->].
Qed.

Lemma assign_by_sym_safe libc args c v :
  safe libc v → is_Some (assign_by_sym libc args c v).
Proof.
  intros Hs. rewrite assign_by_sym_find.
  destruct (list_find (symbol_option c) args) as [[i a]|]; [|done].
  by destruct (option_write_safe libc v a Hs) as [w ->].
Qed.

Lemma assign_cluster_safe libc arg : ∀ args v,
  safe libc v → is_Some (assign_cluster libc args arg v).
Proof.
  induction arg as [|c rest IH]; intros args v Hs; simpl; [done|].
  destruct (assign_by_sym_safe libc args c v Hs) as [args1 ->]. simpl.
  by apply IH.
Qed.

(** A token with a value, or any token under a tolerant library, is
    processed without a fault. *)
Lemma parse_token_safe libc st tok :
  safe libc (token_value tok) → is_Some (parse_token libc st tok).
Proof.
  destruct st as [args out].
  unfold parse_token, token_value, strip.
  destruct (shape tok) as [body|body|].
  - destruct (split_eq body) as [arg v]. simpl. intros Hs.
    destruct (assign_by_name_safe libc args arg v Hs) as [args1 ->]. simpl.
    by destruct (assign_option_by_name_safe libc args1 arg v Hs) as [? ->].
  - destruct (split_eq body) as [arg v]. simpl. intros Hs.
    by destruct (assign_cluster_safe libc arg args v Hs) as [? ->].
  - destruct (split_eq tok) as [arg v]. simpl. intros Hs.
    destruct (assign_by_name_safe libc args arg v Hs) as [args1 ->]. simpl.
    by destruct (assign_option_by_name_safe libc args1 arg v Hs) as [? ->].
Qed.

(** A run over one token. *)
Lemma scan_one_token libc args tok :
  safe libc (token_value tok) →
  ∃ args', scan_tokens libc (args, "") [tok] = Some (args', echo tok)
           ∧ rewrites (matches args tok) (token_writes tok) args args'.
Proof.
  intros Hs. destruct (parse_token_safe libc (args, "") tok Hs)
    as [[args' out'] Hstep].
  exists args'. simpl. rewrite Hstep. simpl.
  apply parse_token_effect in Hstep as [Hrw ->]. done.
Qed.

(** After a token that carries a value, an entry it matched has one. *)
Lemma valued_write_not_missing tok a v :
  token_value tok = Some v → ¬ missing (set_value a (token_writes tok a)).
Proof.
  intros Hv [_ Hnone]. unfold token_writes in Hnone. simpl in Hnone.
  case_decide; congruence.
Qed.

(** ** Tables after [parse_args] *)

Lemma parse_args_same_specs libc parser argv p' out :
  parse_args libc parser argv = Returned p' out →
  same_specs (arguments parser) (arguments p').
Proof.
  intros (args & Hscan & _ & ->)%parse_args_Returned_inv. simpl.
  eapply same_specs_trans; [|apply fill_default_same_specs].
  exact (scan_tokens_same_specs _ _ _ _ _ _ Hscan).
Qed.

Lemma hit_name_same_specs l l' n :
  same_specs l l' → hit_name l' n = hit_name l n.
Proof. intros Hsame. apply hit_same_specs; [apply blind_named|done]. Qed.

(** Declarations with pairwise distinct names, or symbols, make every
    entry the one its name, or its symbol, reaches. *)
Lemma hit_name_unique args i a :
  NoDup (name <$> args) → args !! i = Some a →
  hit_name args (name a) = Some i.
Proof.
  intros Hnd Hi. apply hit_Some. exists a. apply list_find_Some.
  split_and!; [done..|]. intros j y Hj Hji Hy.
  assert (j = i); [|lia].
  apply (NoDup_lookup _ j i (name a) Hnd).
  - by rewrite list_lookup_fmap, Hj, <- Hy.
  - by rewrite list_lookup_fmap, Hi.
Qed.

Lemma hit_sym_unique args i a :
  NoDup (sym <$> args) → args !! i = Some a →
  type a = FLAG ∨ type a = KWARG →
  hit_sym args (sym a) = Some i.
Proof.
  intros Hnd Hi Ht. apply hit_Some. exists a. apply list_find_Some.
  split_and!; [done|by split|]. intros j y Hj Hji [Hy _].
  assert (j = i); [|lia].
  apply (NoDup_lookup _ j i (sym a) Hnd).
  - by rewrite list_lookup_fmap, Hj, <- Hy.
  - by rewrite list_lookup_fmap, Hi.
Qed.

Lemma hit_sym_lookup args c i a :
  hit_sym args c = Some i → args !! i = Some a → sym a = c.
Proof.
  intros [b (Hi & [Hb _] & _)%list_find_Some]%hit_Some Ha.
  by assert (b = a) as <- by congruence.
Qed.

(** ** Claims *)

(** C8.  Each getter reads the first entry that carries the name and
    answers from it only when its type is the getter's own: when that
    entry has another type the answer is the not-found one, [0] for
    [get_flag] and a null pointer for [get_kwarg] and [get_arg], whatever
    value the entry stores.  In particular, on a table without the name,
    declaring a keyword argument and then a flag under that name makes
    [get_flag] answer [0], before parsing and after any parse that
    returns. *)
Theorem getters_check_kind (parser : ArgumentParser) (n : string) :
  (∀ i a, list_find (named n) (arguments parser) = Some (i, a) →
     (type a ≠ FLAG → get_flag parser n = 0%Z)
     ∧ (type a ≠ KWARG → get_kwarg parser n = None)
     ∧ (type a ≠ ARG → get_arg parser n = None))
  ∧ (∀ c1 c2 req d h1 h2,
       Forall (λ a, name a ≠ n) (arguments parser) →
       let declared := add_flag (add_kwarg parser c1 n req d h1) c2 n h2 in
       get_flag declared n = 0%Z
       ∧ ∀ libc argv p' out,
           parse_args libc declared argv = Returned p' out →
           get_flag p' n = 0%Z).
Proof.
  split.
  - intros i a Hfind. unfold get_flag, get_kwarg, get_arg.
    rewrite lookup_flag_find, lookup_kwarg_find, lookup_arg_find, Hfind.
    split_and!; intros Ht; by rewrite decide_False.
  - intros c1 c2 req d h1 h2 Hfresh declared.
    set (kw := {| name := n; sym := stored_sym c1; required := req;
                  help := h1; type := KWARG; count := None; def_val := d;
                  value := None |}).
    assert (Hfind : list_find (named n) (arguments declared)
                    = Some (length (arguments parser), kw)).
    { apply list_find_Some. subst declared. simpl. split_and!.
      - rewrite <- (assoc_L (++)). by apply list_lookup_middle.
      - done.
      - intros j y Hj Hlt Hy. rewrite <- (assoc_L (++)) in Hj.
        rewrite lookup_app_l in Hj by done.
        rewrite Forall_lookup in Hfresh. by apply (Hfresh j y). }
    split.
    + unfold get_flag. by rewrite lookup_flag_find, Hfind.
    + intros libc argv p' out Hrun.
      apply parse_args_same_specs in Hrun.
      destruct (list_find_same_specs _ _ _ _ _ (blind_named n) Hrun Hfind)
        as [w Hw].
      unfold get_flag. by rewrite lookup_flag_find, Hw.
Qed.

(** C2.  When the scan of the tokens completes and leaves some entry
    required and without a value, [parse_args] ends the process with
    [exit(EXIT_FAILURE)], a non-zero status, after writing to standard
    error the single line "Missing required argument: <name>" for the
    first such entry in declaration order.  The table is left as the loop
    found it from that entry on: the entries before it without a value
    have taken their defaults, no entry from it on has. *)
Theorem missing_required_exits (libc : Libc) (parser : ArgumentParser)
    (argv : list string) (args : list Argument) (out : string) :
  scan_tokens libc (arguments parser, "") (tail argv) = Some (args, out) →
  Exists missing args →
  ∃ i a,
    args !! i = Some a ∧ missing a
    ∧ (∀ j b, args !! j = Some b → j < i → ¬ missing b)
    ∧ EXIT_FAILURE ≠ 0%Z
    ∧ parse_args libc parser argv
      = Exited EXIT_FAILURE
          (with_arguments parser
             ((fill_default <$> take i args) ++ drop i args))
          out
          ("Missing required argument: " +:+ name a +:+ newline).
Proof.
  intros Hscan (b & Hb & Hmiss)%Exists_exists.
  destruct (list_find_elem_of missing args b Hb Hmiss) as [[i a] Hfind].
  exists i, a. pose proof Hfind as (Hi & Ha & Hlt)%list_find_Some.
  split_and!; [done..|].
  unfold parse_args. by rewrite Hscan, check_required_find, Hfind.
Qed.

Lemma same_specs_cons a b l l' :
  (∃ w, b = set_value a w) → same_specs l l' → same_specs (a :: l) (b :: l').
Proof.
  intros [w ->] [Hlen Hsame]. split; [simpl; congruence|].
  intros [|i] c Hi; simplify_eq/=; [by exists w|by apply Hsame].
Qed.

Lemma check_required_same_specs args : same_specs args (check_required args).1.
Proof.
  induction args as [|b rest IH]; simpl; [apply same_specs_refl|].
  destruct (decide (required b ≠ 0%Z ∧ value b = None)) as [Hb|Hb].
  { apply same_specs_refl. }
  destruct (check_required rest) as [rest' m]. simpl in *.
  apply same_specs_cons; [|done]. case_decide; [by eexists|].
  exists (value b). by rewrite set_value_id.
Qed.

Lemma token_writes_blind tok a w :
  token_writes tok (set_value a w) = token_writes tok a.
Proof. reflexivity. Qed.

(** C6.  The value an entry holds when the scan completes is the one
    written by the last token that matches it: whatever the tokens before
    it did, and whatever earlier tokens matched the same entry, a later
    match overwrites the value.  When that last write is a text, the
    closing loop leaves it in place, so it is the value of the entry when
    [parse_args] ends, and the value [get_kwarg] reads for a keyword
    argument that is the first entry of its name. *)
Theorem last_write_wins (libc : Libc) (args : list Argument) (out : string)
    (l1 : list string) (tok : string) (l2 : list string)
    (args' : list Argument) (out' : string) (i : nat) (a : Argument) :
  scan_tokens libc (args, out) (l1 ++ tok :: l2) = Some (args', out') →
  args !! i = Some a →
  matches args tok i →
  Forall (λ t, ¬ matches args t i) l2 →
  args' !! i = Some (set_value a (token_writes tok a))
  ∧ (value <$> args' !! i) = Some (token_writes tok a)
  ∧ ∀ v, token_writes tok a = Some v →
         (check_required args').1 !! i = Some (set_value a (Some v))
         ∧ (value <$> (check_required args').1 !! i) = Some (Some v)
         ∧ ∀ parser,
             type a = KWARG → hit_name args (name a) = Some i →
             get_kwarg (with_arguments parser (check_required args').1)
                       (name a)
             = Some v.
Proof.
  intros Hrun Hi Hm Hlater.
  pose proof (scan_tokens_same_specs _ _ _ _ _ _ Hrun) as Hall.
  rewrite scan_tokens_app in Hrun.
  destruct (scan_tokens libc (args, out) l1) as [[args1 out1]|] eqn:H1;
    simplify_eq/=.
  destruct (parse_token libc (args1, out1) tok) as [[args2 out2]|] eqn:H2;
    simplify_eq/=.
  pose proof (scan_tokens_same_specs _ _ _ _ _ _ H1) as Hsame.
  pose proof (parse_token_same_specs _ _ _ _ _ _ H2) as Hsame2.
  destruct (proj2 Hsame i a Hi) as [w Hw].
  apply parse_token_effect in H2 as [[_ Hrw] _].
  destruct (Hrw i _ Hw) as [Hyes _].
  assert (Hlast : args' !! i = Some (set_value a (token_writes tok a))).
  { eapply (scan_tokens_untouched libc l2); [exact Hrun| |].
    - rewrite Hyes; [done|]. by apply (matches_same_specs args args1).
    - eapply Forall_impl; [exact Hlater|]. intros t Ht; simpl.
      rewrite (matches_same_specs args1 args2) by done.
      by rewrite (matches_same_specs args args1). }
  split; [done|]. split; [by rewrite Hlast|].
  intros v Hv. rewrite Hv in Hlast.
  pose proof (check_required_keeps_valued _ _ _ v Hlast eq_refl) as Hkept.
  split; [done|]. split; [by rewrite Hkept|].
  intros parser Ht Hn. unfold get_kwarg. simpl.
  rewrite (lookup_kwarg_at _ _ i (set_value a (Some v))); [done| |done..].
  rewrite (hit_name_same_specs args); [done|].
  eapply same_specs_trans; [exact Hall|apply check_required_same_specs].
Qed.

(** C5.  A keyword argument that is not required, declares a default,
    holds no value and is matched by no token still holds no value when
    the scan of all the tokens is over; the closing loop then writes the
    default into its value, once, and [get_kwarg] on its name (the entry
    being the first of that name) returns the default text as it was
    declared. *)
Theorem default_substituted (libc : Libc) (parser : ArgumentParser)
    (argv : list string) (p' : ArgumentParser) (out : string) (i : nat)
    (a : Argument) (d : string) :
  arguments parser !! i = Some a →
  type a = KWARG → required a = 0%Z → def_val a = Some d →
  value a = None →
  hit_name (arguments parser) (name a) = Some i →
  Forall (λ t, ¬ matches (arguments parser) t i) (tail argv) →
  parse_args libc parser argv = Returned p' out →
  (∃ args1, scan_tokens libc (arguments parser, "") (tail argv)
            = Some (args1, out)
            ∧ args1 !! i = Some a
            ∧ (value <$> args1 !! i) = Some None)
  ∧ arguments p' !! i = Some (set_value a (Some d))
  ∧ (value <$> arguments p' !! i) = Some (Some d)
  ∧ get_kwarg p' (name a) = Some d.
Proof.
  intros Hi Ht Hreq Hdef Hval Hname Hno Hrun.
  pose proof (parse_args_same_specs _ _ _ _ _ Hrun) as Hsame.
  apply parse_args_Returned_inv in Hrun as (args1 & Hscan & _ & ->).
  pose proof (scan_tokens_untouched _ _ _ _ _ _ _ _ Hscan Hi Hno) as Hi1.
  assert (Hi' : (fill_default <$> args1) !! i = Some (set_value a (Some d))).
  { rewrite list_lookup_fmap, Hi1. simpl. unfold fill_default.
    by rewrite decide_True, Hdef. }
  split_and!.
  - exists args1. split_and!; [done..|]. by rewrite Hi1; simpl; rewrite Hval.
  - done.
  - simpl. by rewrite Hi'.
  - unfold get_kwarg.
    rewrite (lookup_kwarg_at _ _ i (set_value a (Some d))); [done| |done..].
    by rewrite (hit_name_same_specs _ _ _ Hsame).
Qed.

(** ** A parse of one token *)

Lemma parse_one_token libc parser argv0 tok v :
  token_value tok = Some v →
  (∀ k c, arguments parser !! k = Some c → missing c →
          matches (arguments parser) tok k) →
  ∃ args',
    parse_args libc parser [argv0; tok]
    = Returned (with_arguments parser (fill_default <$> args')) (echo tok)
    ∧ rewrites (matches (arguments parser) tok) (token_writes tok)
               (arguments parser) args'.
Proof.
  intros Hv Hmiss.
  destruct (scan_one_token libc (arguments parser) tok) as (args' & Hscan & Hrw).
  { right. by rewrite Hv. }
  exists args'. split; [|done].
  apply parse_args_returned; [done|].
  apply Forall_lookup. intros k c' Hk.
  destruct Hrw as [Hlen Hrw].
  destruct (lookup_lt_is_Some_2 (arguments parser) k) as [c Hc].
  { apply lookup_lt_Some in Hk. lia. }
  destruct (Hrw k c Hc) as [Hyes Hno].
  destruct (decide (matches (arguments parser) tok k)) as [Hm|Hm].
  - rewrite (Hyes Hm) in Hk. simplify_eq.
    by eapply valued_write_not_missing.
  - rewrite (Hno Hm) in Hk. injection Hk as <-. intros Hc'.
    apply Hm. by apply (Hmiss k c).
Qed.

Lemma fill_default_written a v :
  fill_default (set_value a (Some v)) = set_value a (Some v).
Proof. by apply (fill_default_valued _ v). Qed.

Lemma cluster_ab_token X :
  is_short ("-ab=" +:+ X) = true
  ∧ token_key ("-ab=" +:+ X) = "ab"
  ∧ token_value ("-ab=" +:+ X) = Some X.
Proof. done. Qed.

(** C1.  Take a table in which the first flag-or-keyword entry with symbol
    ['a'] and the first one with symbol ['b'] are keyword arguments, each
    the first entry of its name, and in which no other entry is required
    and without a value.  Parsing the single token "-ab=X" returns, and
    [get_kwarg] answers "X" for the name behind ['a'] and for the name
    behind ['b']: the one trailing value goes to every keyword symbol of
    the cluster. *)
Theorem cluster_same_value (libc : Libc) (parser : ArgumentParser)
    (argv0 X : string) (i j : nat) (A B : Argument) :
  arguments parser !! i = Some A →
  arguments parser !! j = Some B →
  type A = KWARG → type B = KWARG →
  hit_sym (arguments parser) "a" = Some i →
  hit_sym (arguments parser) "b" = Some j →
  hit_name (arguments parser) (name A) = Some i →
  hit_name (arguments parser) (name B) = Some j →
  (∀ k c, arguments parser !! k = Some c → missing c → k = i ∨ k = j) →
  ∃ p' out,
    parse_args libc parser [argv0; "-ab=" +:+ X] = Returned p' out
    ∧ get_kwarg p' (name A) = Some X
    ∧ get_kwarg p' (name B) = Some X.
Proof.
  intros Hi Hj HtA HtB Ha Hb HnA HnB Hmiss.
  destruct (cluster_ab_token X) as (Hshort & Hkey & Hval).
  assert (Hmi : matches (arguments parser) ("-ab=" +:+ X) i).
  { unfold matches. rewrite Hshort, Hkey. by apply Exists_cons_hd. }
  assert (Hmj : matches (arguments parser) ("-ab=" +:+ X) j).
  { unfold matches. rewrite Hshort, Hkey.
    by apply Exists_cons_tl, Exists_cons_hd. }
  destruct (parse_one_token libc parser argv0 ("-ab=" +:+ X) X Hval)
    as (args' & Hrun & Hrw).
  { intros k c Hk Hc. by destruct (Hmiss k c Hk Hc) as [-> | ->]. }
  eexists _, _. split; [exact Hrun|].
  pose proof (parse_args_same_specs _ _ _ _ _ Hrun) as Hsame.
  destruct Hrw as [_ Hrw].
  destruct (Hrw i A Hi) as [HA _]. destruct (Hrw j B Hj) as [HB _].
  specialize (HA Hmi). specialize (HB Hmj).
  unfold token_writes in HA, HB.
  rewrite decide_False, Hval in HA by congruence.
  rewrite decide_False, Hval in HB by congruence.
  unfold get_kwarg. simpl in *. split.
  - rewrite (lookup_kwarg_at _ _ i (set_value A (Some X))); [done| | |done].
    + by rewrite (hit_name_same_specs _ _ _ Hsame).
    + by rewrite list_lookup_fmap, HA; simpl; rewrite fill_default_written.
  - rewrite (lookup_kwarg_at _ _ j (set_value B (Some X))); [done| | |done].
    + by rewrite (hit_name_same_specs _ _ _ Hsame).
    + by rewrite list_lookup_fmap, HB; simpl; rewrite fill_default_written.
Qed.

Lemma long_token n v :
  plain n →
  is_short ("--" +:+ n +:+ "=" +:+ v) = false
  ∧ token_key ("--" +:+ n +:+ "=" +:+ v) = n
  ∧ token_value ("--" +:+ n +:+ "=" +:+ v) = Some v.
Proof.
  intros Hn. unfold is_short, token_key, token_value, strip.
  rewrite shape_long. by rewrite (split_eq_key n v Hn).
Qed.

(** C9.  A positional entry is reachable through the long form.  When
    the first entry named [n] is positional and no other entry is required
    and without a value, parsing the single token "--n=v" returns with [v]
    as that entry's value, and [get_arg] on [n] answers [v], although [n]
    was never given as a bare token. *)
Theorem positional_by_long_form (libc : Libc) (parser : ArgumentParser)
    (argv0 n v : string) (i : nat) (a : Argument) :
  arguments parser !! i = Some a →
  type a = ARG →
  hit_name (arguments parser) n = Some i →
  plain n →
  (∀ k c, arguments parser !! k = Some c → missing c → k = i) →
  ∃ p' out,
    parse_args libc parser [argv0; "--" +:+ n +:+ "=" +:+ v]
    = Returned p' out
    ∧ arguments p' !! i = Some (set_value a (Some v))
    ∧ get_arg p' n = Some v.
Proof.
  intros Hi Ht Hn Hplain Hmiss.
  destruct (long_token n v Hplain) as (Hshort & Hkey & Hval).
  set (tok := "--" +:+ n +:+ "=" +:+ v) in *.
  assert (Hm : matches (arguments parser) tok i).
  { unfold matches. rewrite Hshort, Hkey. by left. }
  destruct (parse_one_token libc parser argv0 tok v Hval)
    as (args' & Hrun & Hrw).
  { intros k c Hk Hc. by rewrite (Hmiss k c Hk Hc). }
  eexists _, _. split; [exact Hrun|].
  pose proof (parse_args_same_specs _ _ _ _ _ Hrun) as Hsame.
  destruct Hrw as [_ Hrw]. destruct (Hrw i a Hi) as [Ha _].
  specialize (Ha Hm). unfold token_writes in Ha.
  rewrite decide_False, Hval in Ha by congruence.
  assert (Hi' : (fill_default <$> args') !! i = Some (set_value a (Some v))).
  { by rewrite list_lookup_fmap, Ha; simpl; rewrite fill_default_written. }
  split; [done|]. unfold get_arg. simpl in *.
  rewrite (lookup_arg_at _ _ i (set_value a (Some v))); [done| |done..].
  by rewrite (hit_name_same_specs _ _ _ Hsame).
Qed.

(** ** Tokens that reach one entry *)

Lemma rewrites_single S w (l l' : list Argument) i a :
  rewrites S w l l' → l !! i = Some a → (∀ k, S k ↔ k = i) →
  l' = <[i := set_value a (w a)]> l.
Proof.
  intros [Hlen Hrw] Hi Honly. apply list_eq. intros k.
  destruct (decide (k = i)) as [->|Hk].
  - rewrite list_lookup_insert_eq by (by eapply lookup_lt_Some).
    apply (Hrw i a Hi). by apply Honly.
  - rewrite list_lookup_insert_ne by done.
    destruct (l !! k) as [c|] eqn:Hc.
    + apply (Hrw k c Hc). by rewrite Honly.
    + apply lookup_ge_None. apply lookup_ge_None in Hc. lia.
Qed.

Lemma matches_short_one args tok c k :
  is_short tok = true → token_key tok = String c "" →
  matches args tok k ↔ hit_sym args c = Some k.
Proof.
  intros Hs Hk. unfold matches. rewrite Hs, Hk. simpl.
  rewrite Exists_cons, Exists_nil. tauto.
Qed.

Lemma zero_token v :
  is_short ("-0=" +:+ v) = true
  ∧ token_key ("-0=" +:+ v) = "0"
  ∧ token_value ("-0=" +:+ v) = Some v.
Proof. done. Qed.

(** The token "-0" on a table where ['0'] reaches a flag. *)
Lemma zero_flag_token libc args out i a :
  hit_sym args "0" = Some i → args !! i = Some a → type a = FLAG →
  parse_token libc (args, out) "-0"
  = Some (<[i := set_value a (Some "true")]> args, out).
Proof.
  intros [b Hb]%hit_Some Hi Ht.
  pose proof Hb as (Hi' & _)%list_find_Some.
  assert (b = a) as -> by congruence.
  unfold parse_token. simpl. rewrite assign_by_sym_find, Hb.
  unfold option_write. by rewrite decide_True.
Qed.

(** A short token with the single symbol [c] writes the first
    flag-or-keyword entry of that symbol and no other entry. *)
Lemma parse_one_symbol libc parser argv0 tok c args' out i a :
  is_short tok = true → token_key tok = String c "" →
  scan_tokens libc (arguments parser, "") [tok] = Some (args', out) →
  arguments parser !! i = Some a →
  hit_sym (arguments parser) c = Some i →
  is_Some (token_writes tok a) →
  (∀ k b, arguments parser !! k = Some b → missing b → k = i) →
  ∃ p',
    parse_args libc parser [argv0; tok] = Returned p' out
    ∧ arguments p' !! i = Some (set_value a (token_writes tok a))
    ∧ ∀ k b, k ≠ i → arguments parser !! k = Some b →
             arguments p' !! k = Some (fill_default b).
Proof.
  intros Hs Hk Hscan Hi Hc [v Hv] Hmiss.
  assert (Hargs : args' = <[i := set_value a (Some v)]> (arguments parser)).
  { simpl in Hscan.
    destruct (parse_token libc (arguments parser, "") tok)
      as [[args1 out1]|] eqn:Hstep; simplify_eq/=.
    apply parse_token_effect in Hstep as [Hrw _]. rewrite <- Hv.
    apply (rewrites_single _ _ _ _ _ _ Hrw Hi).
    intros k. rewrite (matches_short_one _ _ c) by done.
    rewrite Hc. naive_solver. }
  exists (with_arguments parser (fill_default <$> args')). split_and!.
  - apply parse_args_returned; [done|]. subst args'.
    apply Forall_lookup. intros k b Hb.
    destruct (decide (k = i)) as [->|Hne].
    + rewrite list_lookup_insert_eq in Hb by (by eapply lookup_lt_Some).
      injection Hb as <-. by intros [_ ?].
    + rewrite list_lookup_insert_ne in Hb by done.
      intros Hm. by apply Hne, (Hmiss k b).
  - simpl. subst args'. rewrite list_lookup_fmap.
    rewrite list_lookup_insert_eq by (by eapply lookup_lt_Some).
    simpl. by rewrite fill_default_written, Hv.
  - intros k b Hne Hb. simpl. subst args'. rewrite list_lookup_fmap.
    rewrite list_lookup_insert_ne by done. by rewrite Hb.
Qed.

(** C10, as the code has it.  A symbol code of [0] given to [add_flag],
    [add_kwarg] or [add_arg] is stored as the character ['0'].  A short
    token with the cluster "0" then reaches the first flag-or-keyword
    entry whose stored symbol is ['0'], and only that entry: "-0=v" makes
    it "true" if it is a flag and [v] if it is a keyword argument, "-0"
    makes it "true" if it is a flag; every other entry, those declared
    without a symbol included, is left to the closing loop as it was.
    More generally a short token whose cluster holds ['0'] writes that
    first entry, and no short token writes another entry stored with
    ['0']. *)
Theorem absent_symbol_is_zero :
  (∀ parser n h,
     arguments (add_flag parser "000" n h)
     = arguments parser
       ++ [{| name := n; sym := "0"; required := 0; help := h; type := FLAG;
              count := None; def_val := None; value := None |}])
  ∧ (∀ parser n req d h,
       arguments (add_kwarg parser "000" n req d h)
       = arguments parser
         ++ [{| name := n; sym := "0"; required := req; help := h;
                type := KWARG; count := None; def_val := d;
                value := None |}])
  ∧ (∀ parser n req nargs d h,
       arguments (add_arg parser "000" n req nargs d h)
       = arguments parser
         ++ [{| name := n; sym := "0"; required := req; help := h;
                type := ARG; count := Some nargs; def_val := d;
                value := None |}])
  ∧ (∀ libc parser argv0 v i a,
       arguments parser !! i = Some a →
       hit_sym (arguments parser) "0" = Some i →
       (∀ k b, arguments parser !! k = Some b → missing b → k = i) →
       ∃ p' out,
         parse_args libc parser [argv0; "-0=" +:+ v] = Returned p' out
         ∧ arguments p' !! i
           = Some (set_value a
                     (if decide (type a = FLAG) then Some "true"
                      else Some v))
         ∧ ∀ k b, k ≠ i → arguments parser !! k = Some b →
                  arguments p' !! k = Some (fill_default b))
  ∧ (∀ libc parser argv0 i a,
       arguments parser !! i = Some a →
       hit_sym (arguments parser) "0" = Some i →
       type a = FLAG →
       (∀ k b, arguments parser !! k = Some b → missing b → k = i) →
       ∃ p' out,
         parse_args libc parser [argv0; "-0"] = Returned p' out
         ∧ arguments p' !! i = Some (set_value a (Some "true"))
         ∧ ∀ k b, k ≠ i → arguments parser !! k = Some b →
                  arguments p' !! k = Some (fill_default b))
  ∧ (∀ libc args out tok args' out' i a,
       is_short tok = true →
       parse_token libc (args, out) tok = Some (args', out') →
       args !! i = Some a →
       hit_sym args "0" = Some i →
       ("0"%char ∈ String.list_ascii_of_string (token_key tok) →
        args' !! i = Some (set_value a (token_writes tok a)))
       ∧ ∀ k b, args !! k = Some b → sym b = "0"%char → k ≠ i →
                args' !! k = Some b).
Proof.
  split_and!; [done..| | |].
  - intros libc parser argv0 v i a Hi Hc Hmiss.
    destruct (zero_token v) as (Hs & Hk & Hv).
    destruct (scan_one_token libc (arguments parser) ("-0=" +:+ v))
      as (args' & Hscan & _).
    { right. by rewrite Hv. }
    destruct (parse_one_symbol libc parser argv0 ("-0=" +:+ v) "0" args' _
                i a Hs Hk Hscan Hi Hc) as (p' & Hrun & Hat & Hrest);
      [|done|].
    { unfold token_writes. rewrite Hv. by case_decide. }
    exists p', (echo ("-0=" +:+ v)). split_and!; [done| |done].
    rewrite Hat. unfold token_writes. by rewrite Hv.
  - intros libc parser argv0 i a Hi Hc Ht Hmiss.
    assert (Hscan : scan_tokens libc (arguments parser, "") ["-0"]
                    = Some (<[i := set_value a (Some "true")]>
                              (arguments parser), "")).
    { simpl. by rewrite (zero_flag_token libc _ _ i a). }
    destruct (parse_one_symbol libc parser argv0 "-0" "0" _ _
                i a eq_refl eq_refl Hscan Hi Hc) as (p' & Hrun & Hat & Hrest);
      [|done|].
    { unfold token_writes. by rewrite decide_True. }
    exists p', "". split_and!; [done| |done].
    rewrite Hat. unfold token_writes. by rewrite decide_True.
  - intros libc args out tok args' out' i a Hs
      [[_ Hrw] _]%parse_token_effect Hi Hc.
    split.
    + intros Hin. apply (Hrw i a Hi). unfold matches. rewrite Hs.
      apply Exists_exists. by exists "0"%char.
    + intros k b Hk Hb Hne. apply (Hrw k b Hk). unfold matches.
      rewrite Hs. intros (c & _ & Hhit)%Exists_exists.
      pose proof (hit_sym_lookup _ _ _ _ Hhit Hk) as Hsym.
      rewrite Hb in Hsym. subst c. congruence.
Qed.

(** ** The long form without a value *)

Lemma long_bare_token n :
  plain n →
  is_short ("--" +:+ n) = false
  ∧ token_key ("--" +:+ n) = n
  ∧ token_value ("--" +:+ n) = None.
Proof.
  intros Hn. unfold is_short, token_key, token_value, strip.
  rewrite shape_long. by rewrite (split_eq_plain n Hn).
Qed.

(** Under a library whose [strdup] faults on a null pointer, "--n" faults
    as soon as some entry is named [n], whatever its type: the first loop
    copies the absent value before the second one looks at the type. *)
Lemma long_form_without_value_faults parser argv0 n i :
  hit_name (arguments parser) n = Some i → plain n →
  parse_args NullFaulting parser [argv0; "--" +:+ n] = Undefined.
Proof.
  intros [a Ha]%hit_Some Hn. unfold parse_args. simpl.
  unfold parse_token. rewrite shape_long, (split_eq_plain n Hn).
  by rewrite assign_by_name_find, Ha.
Qed.

(** Under a tolerant library, "--n" on a keyword argument that is the first
    entry of its name resets its value to the null pointer. *)
Lemma scan_long_bare_kwarg args n i a :
  args !! i = Some a → type a = KWARG → name a = n →
  hit_name args n = Some i → plain n →
  scan_tokens NullTolerant (args, "") ["--" +:+ n]
  = Some (<[i := set_value a None]> args, "").
Proof.
  intros Hi Ht Hna Hn Hplain.
  destruct (long_bare_token n Hplain) as (Hs & Hk & Hv).
  destruct (scan_one_token NullTolerant args ("--" +:+ n))
    as (args' & Hscan & Hrw); [by left|].
  rewrite Hscan. f_equal. f_equal.
  replace (set_value a None)
    with (set_value a (token_writes ("--" +:+ n) a)).
  - apply (rewrites_single _ _ _ _ _ _ Hrw Hi). intros k.
    unfold matches. rewrite Hs, Hk.
    rewrite (hit_name_option args n i a Hn Hi) by auto.
    rewrite Hn. split; [intros [[= ->]|[= ->]]; done|intros ->; by left].
  - unfold token_writes. rewrite decide_False by congruence. by rewrite Hv.
Qed.

(** C3, as the code has it.  With a [strdup] that answers a null pointer
    with a null pointer, the bare token "--name" on a keyword argument
    that is the first entry of its name leaves the entry with a null
    value.  That is the state of an entry no token ever matched: on a
    fresh entry the parse is the parse of no token at all; the closing
    loop replaces the null value by the default when the entry is not
    required, and reports the entry as missing when it is. *)
Theorem bare_long_name_is_absent (parser : ArgumentParser) (argv0 : string)
    (i : nat) (a : Argument) :
  arguments parser !! i = Some a →
  type a = KWARG →
  hit_name (arguments parser) (name a) = Some i →
  plain (name a) →
  scan_tokens NullTolerant (arguments parser, "") ["--" +:+ name a]
  = Some (<[i := set_value a None]> (arguments parser), "")
  ∧ (value a = None →
     parse_args NullTolerant parser [argv0; "--" +:+ name a]
     = parse_args NullTolerant parser [argv0])
  ∧ (∀ p' out,
       parse_args NullTolerant parser [argv0; "--" +:+ name a]
       = Returned p' out →
       required a = 0%Z
       ∧ arguments p' !! i = Some (set_value a (def_val a)))
  ∧ (required a ≠ 0%Z →
     ∃ p' out err,
       parse_args NullTolerant parser [argv0; "--" +:+ name a]
       = Exited EXIT_FAILURE p' out err).
Proof.
  intros Hi Ht Hn Hplain.
  pose proof (scan_long_bare_kwarg _ _ i a Hi Ht eq_refl Hn Hplain) as Hscan.
  assert (Hlt : i < length (arguments parser)) by (by eapply lookup_lt_Some).
  split_and!; [done| | |].
  - intros Hv. unfold parse_args. simpl tail. rewrite Hscan.
    rewrite <- Hv, set_value_id, list_insert_id by done. done.
  - intros p' out (args1 & Hscan1 & Hok & ->)%parse_args_Returned_inv.
    simpl tail in Hscan1. rewrite Hscan in Hscan1. injection Hscan1 as <- <-.
    rewrite Forall_lookup in Hok.
    specialize (Hok i (set_value a None)).
    rewrite list_lookup_insert_eq in Hok by done. split.
    + destruct (decide (required a = 0%Z)) as [|Hreq]; [done|].
      by destruct Hok.
    + simpl. rewrite list_lookup_fmap, list_lookup_insert_eq by done.
      simpl. unfold fill_default. by rewrite decide_True.
  - intros Hreq. unfold parse_args. simpl tail. rewrite Hscan.
    rewrite check_required_find.
    destruct (list_find missing (<[i := set_value a None]> (arguments parser)))
      as [[j b]|] eqn:Hfind; [by eexists _, _, _|].
    apply list_find_None in Hfind. rewrite Forall_lookup in Hfind.
    destruct (Hfind i (set_value a None)); [|done].
    by apply list_lookup_insert_eq.
Qed.

(** ** Bare tokens and standard output *)

(** The third branch is taken exactly by the tokens that do not start
    with ['-']. *)
Lemma is_bare_iff tok :
  is_bare tok = true ↔ ∀ rest, tok ≠ String "-" rest.
Proof.
  unfold is_bare, shape. destruct tok as [|c rest]; [done|].
  destruct (decide (c = "-"%char)) as [->|Hc].
  - split; [|intros Hno; by destruct (Hno rest)].
    by destruct rest as [|c' rest']; [|destruct (decide (c' = "-"%char)) as
      [->|]; [|destruct c' as [[] [] [] [] [] [] [] []]]].
  - split; [intros _ rest' [= ? ?]; done|intros _].
    by destruct c as [[] [] [] [] [] [] [] []].
Qed.


(** ** Flags *)

(** Once a token has matched a flag, the flag keeps the value "true" to
    the end of a scan that completes. *)
Lemma flag_set_by_scan libc toks : ∀ args out args' out' i a,
  scan_tokens libc (args, out) toks = Some (args', out') →
  args !! i = Some a → type a = FLAG →
  Exists (λ t, matches args t i) toks →
  args' !! i = Some (set_value a (Some "true")).
Proof.
  induction toks as [|t toks IH];
    intros args out args' out' i a Hrun Hi Ht Hex.
  { by apply Exists_nil in Hex. }
  simpl in Hrun.
  destruct (parse_token libc (args, out) t) as [[args1 out1]|] eqn:Hstep;
    simplify_eq/=.
  pose proof (parse_token_same_specs _ _ _ _ _ _ Hstep) as Hsame.
  apply parse_token_effect in Hstep as [[_ Hrw] _].
  destruct (Hrw i a Hi) as [Hyes Hno].
  assert (Hw : token_writes t a = Some "true").
  { unfold token_writes. by rewrite decide_True. }
  destruct (decide (Exists (λ t', matches args1 t' i) toks)) as [Hl|Hl].
  - destruct (decide (matches args t i)) as [Hm|Hm].
    + apply (IH _ _ _ _ _ _ Hrun (Hyes Hm)); done.
    + apply (IH _ _ _ _ _ _ Hrun (Hno Hm)); done.
  - apply Exists_cons in Hex as [Hm|Hex].
    + apply (scan_tokens_untouched _ _ _ _ _ _ _ _ Hrun).
      * rewrite (Hyes Hm). by rewrite Hw.
      * by apply (not_Exists_Forall (λ t', matches args1 t' i)).
    + destruct Hl. eapply Exists_impl; [exact Hex|].
      intros t'; simpl. by rewrite (matches_same_specs _ _ _ _ Hsame).
Qed.

(** Whenever [parse_args] returns, a flag that some token matched and that
    is the first entry of its name reads as set. *)
Lemma flag_set_when_returned libc parser argv p' out i a :
  parse_args libc parser argv = Returned p' out →
  arguments parser !! i = Some a → type a = FLAG →
  hit_name (arguments parser) (name a) = Some i →
  Exists (λ t, matches (arguments parser) t i) (tail argv) →
  get_flag p' (name a) = 1%Z.
Proof.
  intros Hrun Hi Ht Hn Hex.
  pose proof (parse_args_same_specs _ _ _ _ _ Hrun) as Hsame.
  apply parse_args_Returned_inv in Hrun as (args1 & Hscan & _ & ->).
  pose proof (flag_set_by_scan _ _ _ _ _ _ _ _ Hscan Hi Ht Hex) as Hset.
  unfold get_flag. simpl in *.
  apply (lookup_flag_at _ _ i (set_value a (Some "true")) "true");
    [|by rewrite list_lookup_fmap, Hset|done..].
  by rewrite (hit_name_same_specs _ _ _ Hsame).
Qed.

(** C4.  The header's own scenario: the parser is created with the
    automatic help flag and the program is run with "--help".  Under a
    [strdup] that faults on a null pointer, the first name loop copies the
    absent value of the token before the flag loop runs, and the run is
    undefined instead of setting the flag; the short form and the long
    form with a value set it, and so does "--help" itself under a tolerant
    [strdup]. *)
Theorem help_long_form_faults :
  parse_args NullFaulting help_parser ["p"; "--help"] = Undefined
  ∧ match parse_args NullFaulting help_parser ["p"; "--help=1"] with
    | Returned p' _ => get_flag p' "help" = 1%Z
    | _ => False
    end
  ∧ match parse_args NullFaulting help_parser ["p"; "-h"] with
    | Returned p' _ => get_flag p' "help" = 1%Z
    | _ => False
    end
  ∧ match parse_args NullTolerant help_parser ["p"; "--help"] with
    | Returned p' _ => get_flag p' "help" = 1%Z
    | _ => False
    end.
Proof. done. Qed.

(** ** The claims on sample tables *)

Lemma cluster_same_value_witness :
  ∃ p' out,
    parse_args NullFaulting ab_parser ["p"; "-ab=" +:+ "X"] = Returned p' out
    ∧ get_kwarg p' "alpha" = Some "X"
    ∧ get_kwarg p' "beta" = Some "X".
Proof.
  refine (cluster_same_value NullFaulting ab_parser "p" "X" 1 2 _ _
            eq_refl eq_refl eq_refl eq_refl eq_refl eq_refl eq_refl eq_refl
            _).
  intros [|[|[|k]]] c Hk [Hreq Hval]; simplify_eq/=; auto.
Defined.

Lemma missing_required_exits_witness :
  ∃ i a,
    arguments required_name !! i = Some a ∧ missing a
    ∧ (∀ j b, arguments required_name !! j = Some b → j < i → ¬ missing b)
    ∧ EXIT_FAILURE ≠ 0%Z
    ∧ parse_args NullFaulting required_name ["p"; "-x"; "y=1"]
      = Exited EXIT_FAILURE
          (with_arguments required_name
             ((fill_default <$> take i (arguments required_name))
              ++ drop i (arguments required_name)))
          "y"
          ("Missing required argument: " +:+ name a +:+ newline).
Proof.
  apply (missing_required_exits NullFaulting required_name
           ["p"; "-x"; "y=1"] (arguments required_name) "y").
  - reflexivity.
  - apply Exists_cons_hd. split; [discriminate|reflexivity].
Defined.

Lemma default_substituted_witness :
  parse_args NullFaulting default_name ["p"; "-x"; "--other=1"; "bare"]
  = Returned (with_arguments default_name
                [set_value name_entry (Some "dflt")]) "bare"
  ∧ (∃ args1,
       scan_tokens NullFaulting (arguments default_name, "")
         (tail ["p"; "-x"; "--other=1"; "bare"])
       = Some (args1, "bare")
       ∧ args1 !! 0 = Some name_entry
       ∧ (value <$> args1 !! 0) = Some None)
  ∧ arguments (with_arguments default_name
                 [set_value name_entry (Some "dflt")]) !! 0
    = Some (set_value name_entry (Some "dflt"))
  ∧ (value <$> arguments (with_arguments default_name
                            [set_value name_entry (Some "dflt")]) !! 0)
    = Some (Some "dflt")
  ∧ get_kwarg (with_arguments default_name
                 [set_value name_entry (Some "dflt")]) (name name_entry)
    = Some "dflt".
Proof.
  split; [reflexivity|].
  apply (default_substituted NullFaulting default_name
           ["p"; "-x"; "--other=1"; "bare"] _ "bare" 0 name_entry "dflt");
    try reflexivity.
  repeat constructor; intros Hm; vm_compute in Hm;
    repeat match goal with
           | H : Exists _ _ |- _ => inversion H; clear H; subst
           | H : _ ∨ _ |- _ => destruct H
           end; discriminate.
Defined.

Lemma last_write_wins_witness :
  scan_tokens NullFaulting ([name_entry], "")
    (["--name=1"] ++ "-n=2" :: ["other"; "--x=3"])
  = Some ([set_value name_entry (Some "2")], "other")
  ∧ (value <$> [set_value name_entry (Some "2")] !! 0) = Some (Some "2")
  ∧ (value <$> (check_required [set_value name_entry (Some "2")]).1 !! 0)
    = Some (Some "2")
  ∧ get_kwarg (with_arguments default_name
                 (check_required [set_value name_entry (Some "2")]).1)
              "name"
    = Some "2".
Proof.
  split; [reflexivity|].
  destruct (last_write_wins NullFaulting [name_entry] ""
              ["--name=1"] "-n=2" ["other"; "--x=3"]
              [set_value name_entry (Some "2")] "other" 0 name_entry)
    as (_ & Hv & Hclose).
  - reflexivity.
  - reflexivity.
  - apply Exists_cons_hd. reflexivity.
  - repeat constructor; intros Hm; vm_compute in Hm;
      destruct Hm; discriminate.
  - destruct (Hclose "2" eq_refl) as (_ & Hvc & Hget).
    split; [exact Hv|]. split; [exact Hvc|].
    exact (Hget default_name eq_refl eq_refl).
Defined.

Lemma getters_check_kind_witness :
  get_flag same_name_parser "mode" = 0%Z
  ∧ get_kwarg output_parser "output" = None
  ∧ get_arg same_name_parser "mode" = None
  ∧ ∃ p' out,
      parse_args NullFaulting same_name_parser ["p"; "--mode=fast"]
      = Returned p' out
      ∧ get_flag p' "mode" = 0%Z.
Proof.
  pose proof (getters_check_kind same_name_parser "mode") as [Hfirst _].
  pose proof (getters_check_kind output_parser "output") as [Hout _].
  pose proof (getters_check_kind bare_parser "mode") as [_ Hdecl].
  destruct (Hfirst 0 _ eq_refl) as (Hflag & _ & Harg).
  destruct (Hout 0 _ eq_refl) as (_ & Hkw & _).
  destruct (Hdecl "k"%char "m"%char 0%Z None None None (Forall_nil_2 _))
    as [_ Hafter].
  split_and!.
  - by apply Hflag.
  - by apply Hkw.
  - by apply Harg.
  - eexists _, _. split; [reflexivity|].
    by apply (Hafter NullFaulting ["p"; "--mode=fast"] _ _ eq_refl).
Defined.

Lemma positional_by_long_form_witness :
  ∃ p' out,
    parse_args NullFaulting output_parser
      ["p"; "--" +:+ "output" +:+ "=" +:+ "result.txt"]
    = Returned p' out
    ∧ arguments p' !! 0 = Some (set_value output_entry (Some "result.txt"))
    ∧ get_arg p' "output" = Some "result.txt".
Proof.
  apply (positional_by_long_form NullFaulting output_parser "p" "output"
           "result.txt" 0 output_entry); try reflexivity.
  - unfold plain. simpl. rewrite !not_elem_of_cons.
    split_and!; try discriminate. apply not_elem_of_nil.
  - intros [|k] c Hk _; [done|]. by destruct k.
Defined.

Lemma absent_symbol_is_zero_witness :
  (∃ p' out,
       parse_args NullFaulting two_unnamed_flags ["p"; "-0=" +:+ "v"]
       = Returned p' out
       ∧ (value <$> arguments p' !! 0) = Some (Some "true")
       ∧ (value <$> arguments p' !! 1) = Some None)
  ∧ (∃ p' out,
       parse_args NullFaulting two_unnamed_flags ["p"; "-0"]
       = Returned p' out
       ∧ (value <$> arguments p' !! 0) = Some (Some "true")
       ∧ (value <$> arguments p' !! 1) = Some None).
Proof.
  destruct absent_symbol_is_zero as (_ & _ & _ & Hvalued & Hflag & _).
  split_and!.
  - destruct (Hvalued NullFaulting two_unnamed_flags "p" "v" 0 _
                eq_refl eq_refl) as (p' & out & Hrun & Hat & Hrest).
    { intros [|[|k]] b Hk [Hreq _]; simplify_eq/=. }
    exists p', out. split_and!; [done|by rewrite Hat|].
    by rewrite (Hrest 1 _ (ltac:(lia)) eq_refl).
  - destruct (Hflag NullFaulting two_unnamed_flags "p" 0 _
                eq_refl eq_refl eq_refl) as (p' & out & Hrun & Hat & Hrest).
    { intros [|[|k]] b Hk [Hreq _]; simplify_eq/=. }
    exists p', out. split_and!; [done|by rewrite Hat|].
    by rewrite (Hrest 1 _ (ltac:(lia)) eq_refl).
Defined.

Lemma bare_long_name_is_absent_witness :
  scan_tokens NullTolerant (arguments default_name, "") ["--" +:+ "name"]
  = Some (arguments default_name, "")
  ∧ parse_args NullTolerant default_name ["p"; "--" +:+ "name"]
    = parse_args NullTolerant default_name ["p"]
  ∧ (∃ p' out err,
       parse_args NullTolerant required_name ["p"; "--" +:+ "name"]
       = Exited EXIT_FAILURE p' out err).
Proof.
  destruct (bare_long_name_is_absent default_name "p" 0 name_entry)
    as (Hscan & Hsame & _ & _); try reflexivity.
  { unfold plain. simpl. rewrite !not_elem_of_cons.
    split_and!; try discriminate. apply not_elem_of_nil. }
  destruct (bare_long_name_is_absent required_name "p" 0 required_entry)
    as (_ & _ & _ & Hexit); try reflexivity.
  { unfold plain. simpl. rewrite !not_elem_of_cons.
    split_and!; try discriminate. apply not_elem_of_nil. }
  split_and!; [exact Hscan|by apply Hsame|by apply Hexit].
Defined.


(** ** Counterexamples *)

(** C3 on [required_name] and [default_name], run with "--name": the
    required entry is reported missing (or the run faults), and the
    entry with a default reads as its default, exactly as if the token
    had not been given. *)
Lemma bare_long_name_not_distinct :
  parse_args NullTolerant required_name ["p"; "--name"]
  = Exited EXIT_FAILURE required_name ""
      ("Missing required argument: name" +:+ newline)
  ∧ parse_args NullFaulting required_name ["p"; "--name"] = Undefined
  ∧ parse_args NullTolerant default_name ["p"; "--name"]
    = Returned (with_arguments default_name
                  [set_value name_entry (Some "dflt")]) ""
  ∧ parse_args NullTolerant default_name ["p"; "--name"]
    = parse_args NullTolerant default_name ["p"]
  ∧ parse_args NullFaulting default_name ["p"; "--name"] = Undefined.
Proof. done. Qed.


(** C10 on two flags declared without a symbol: both are stored with
    ['0'], and "-0" sets the first one only. *)
Lemma second_unnamed_flag_not_set :
  (sym <$> arguments two_unnamed_flags) = ["0"%char; "0"%char]
  ∧ match parse_args NullFaulting two_unnamed_flags ["p"; "-0"] with
    | Returned p' _ => get_flag p' "x" = 1%Z ∧ get_flag p' "y" = 0%Z
    | _ => False
    end
  ∧ match parse_args NullTolerant two_unnamed_flags ["p"; "-0=v"] with
    | Returned p' _ => get_flag p' "x" = 1%Z ∧ get_flag p' "y" = 0%Z
    | _ => False
    end.
Proof. done. Qed.

(** ** Further properties of [parse_args] *)

Lemma same_specs_fields l l' i a :
  same_specs l l' → l !! i = Some a →
  ∃ a', l' !! i = Some a'
        ∧ name a' = name a ∧ sym a' = sym a ∧ required a' = required a
        ∧ help a' = help a ∧ type a' = type a ∧ count a' = count a
        ∧ def_val a' = def_val a.
Proof.
  intros [_ Hsame] Hi. destruct (Hsame i a Hi) as [w Hw].
  exists (set_value a w). by split_and!.
Qed.

Lemma parse_args_Exited_inv libc parser argv st p' out err :
  parse_args libc parser argv = Exited st p' out err →
  ∃ args i a,
    scan_tokens libc (arguments parser, "") (tail argv) = Some (args, out)
    ∧ list_find missing args = Some (i, a)
    ∧ st = EXIT_FAILURE
    ∧ p' = with_arguments parser
             ((fill_default <$> take i args) ++ drop i args)
    ∧ err = "Missing required argument: " +:+ name a +:+ newline.
Proof.
  unfold parse_args.
  destruct (scan_tokens libc (arguments parser, "") (tail argv))
    as [[args o]|] eqn:Hscan; [|done].
  rewrite check_required_find.
  destruct (list_find missing args) as [[i a]|] eqn:Hfind; [|done].
  intros [= <- <- <- <-]. by exists args, i, a.
Qed.

(** What [parse_args] hands back, by return or at exit, has the
    declarations of the parser it was given. *)
Lemma parse_args_outcome_same_specs libc parser argv p' :
  (∃ out, parse_args libc parser argv = Returned p' out)
  ∨ (∃ st out err, parse_args libc parser argv = Exited st p' out err) →
  same_specs (arguments parser) (arguments p')
  ∧ p' = with_arguments parser (arguments p').
Proof.
  intros [[out Hrun]|(st & out & err & Hrun)].
  - split; [by eapply parse_args_same_specs|].
    by apply parse_args_Returned_inv in Hrun as (args & _ & _ & ->).
  - apply parse_args_Exited_inv in Hrun
      as (args & i & a & Hscan & Hfind & _ & -> & _).
    split; [|done]. simpl.
    eapply same_specs_trans.
    { exact (scan_tokens_same_specs _ _ _ _ _ _ Hscan). }
    pose proof (check_required_same_specs args) as Hcr.
    by rewrite check_required_find, Hfind in Hcr.
Qed.

(** X1.  Parsing writes values only.  Whether [parse_args] returns or
    exits, the parser it leaves has the display strings, the number of
    entries and, entry by entry, the name, symbol, required mark, help
    text, type, count and default of the parser it was given. *)
Theorem parse_keeps_declarations (libc : Libc) (parser : ArgumentParser)
    (argv : list string) (p' : ArgumentParser) :
  (∃ out, parse_args libc parser argv = Returned p' out)
  ∨ (∃ st out err, parse_args libc parser argv = Exited st p' out err) →
  program p' = program parser ∧ usage p' = usage parser
  ∧ epilog p' = epilog parser ∧ description p' = description parser
  ∧ parser_count p' = parser_count parser
  ∧ ∀ i a, arguments parser !! i = Some a →
      ∃ a', arguments p' !! i = Some a'
            ∧ name a' = name a ∧ sym a' = sym a ∧ required a' = required a
            ∧ help a' = help a ∧ type a' = type a ∧ count a' = count a
            ∧ def_val a' = def_val a.
Proof.
  intros [Hsame Hp']%parse_args_outcome_same_specs.
  split_and!; try (by rewrite Hp').
  - apply Hsame.
  - intros i a Hi. by apply (same_specs_fields (arguments parser)).
Qed.

Lemma fill_default_not_missing a : ¬ missing a → ¬ missing (fill_default a).
Proof.
  intros Ha [Hreq Hval]. unfold fill_default in *.
  case_decide; [|by apply Ha]. apply Ha. by split.
Qed.

(** X2.  When [parse_args] returns, every entry that is required has a
    value, and an entry is left without a value only if it declares no
    default. *)
Theorem returned_entries_resolved (libc : Libc) (parser : ArgumentParser)
    (argv : list string) (p' : ArgumentParser) (out : string) :
  parse_args libc parser argv = Returned p' out →
  ∀ i a, arguments p' !! i = Some a →
    (required a ≠ 0%Z → is_Some (value a))
    ∧ (value a = None → def_val a = None).
Proof.
  intros (args & _ & Hok & ->)%parse_args_Returned_inv i a' Hi.
  simpl in Hi. rewrite list_lookup_fmap in Hi.
  destruct (args !! i) as [a|] eqn:Ha; simplify_eq/=.
  rewrite Forall_lookup in Hok. specialize (Hok i a Ha).
  unfold fill_default. case_decide as Hv.
  - split; simpl; [|done]. intros Hreq. by destruct Hok.
  - split; [|done]. intros _. by destruct (value a).
Qed.

(** X3.  [parse_args] exits for one reason only.  If it exits, the status
    is [EXIT_FAILURE], the table at exit holds an entry that is required
    and without a value, no entry before it is in that state, and
    standard error holds the one line that names it. *)
Theorem exit_means_missing (libc : Libc) (parser : ArgumentParser)
    (argv : list string) (st : Z) (p' : ArgumentParser) (out err : string) :
  parse_args libc parser argv = Exited st p' out err →
  st = EXIT_FAILURE
  ∧ ∃ i a,
      arguments p' !! i = Some a ∧ missing a
      ∧ (∀ j b, arguments p' !! j = Some b → j < i → ¬ missing b)
      ∧ err = "Missing required argument: " +:+ name a +:+ newline.
Proof.
  intros (args & i & a & _ & Hfind & -> & -> & ->)%parse_args_Exited_inv.
  apply list_find_Some in Hfind as (Hi & Ha & Hlt).
  assert (Hlen : length (fill_default <$> take i args) = i).
  { rewrite length_fmap, length_take. apply lookup_lt_Some in Hi. lia. }
  split; [done|]. exists i, a. simpl. split_and!; [|done| |done].
  - rewrite lookup_app_r by lia. rewrite Hlen, Nat.sub_diag.
    by rewrite lookup_drop, Nat.add_0_r.
  - intros j b Hj Hji. rewrite lookup_app_l in Hj by lia.
    rewrite list_lookup_fmap, lookup_take_lt in Hj by done.
    destruct (args !! j) as [b0|] eqn:Hb0; simplify_eq/=.
    apply fill_default_not_missing. by apply (Hlt j).
Qed.

Lemma fill_default_idem a : fill_default (fill_default a) = fill_default a.
Proof.
  unfold fill_default. destruct (decide (value a = None)) as [Hv|Hv].
  - simpl. destruct (def_val a) as [d|] eqn:Hd.
    + by rewrite decide_False.
    + rewrite decide_True by done. unfold set_value; simpl. by rewrite ?Hd.
  - by rewrite decide_False.
Qed.

(** X4.  A parser that [parse_args] returned is a fixed point: parsing it
    again with no token returns it as it is, with nothing written. *)
Theorem reparse_is_stable (libc : Libc) (parser : ArgumentParser)
    (argv : list string) (p' : ArgumentParser) (out : string) :
  parse_args libc parser argv = Returned p' out →
  ∀ libc' argv0, parse_args libc' p' [argv0] = Returned p' "".
Proof.
  intros (args & _ & Hok & ->)%parse_args_Returned_inv libc' argv0.
  rewrite (parse_args_returned libc' _ [argv0] (fill_default <$> args) "").
  - f_equal. unfold with_arguments. simpl. f_equal.
    rewrite <- list_fmap_compose. apply list_fmap_ext.
    intros i a _. apply fill_default_idem.
  - done.
  - apply Forall_fmap. eapply Forall_impl; [exact Hok|].
    intros a. apply fill_default_not_missing.
Qed.

(** ** Tokens that match nothing, and tokens that fault *)




Lemma reaches_kwarg_same_specs l l' c :
  same_specs l l' → reaches_kwarg l' c ↔ reaches_kwarg l c.
Proof.
  assert (Hdir : ∀ l l', same_specs l l' →
                         reaches_kwarg l c → reaches_kwarg l' c).
  { clear. intros l l' Hsame. unfold reaches_kwarg.
    destruct (list_find (symbol_option c) l) as [[i a]|] eqn:E; [|done].
    destruct (list_find_same_specs _ _ _ _ _ (blind_symbol_option c) Hsame E)
      as [w ->]. done. }
  intros Hsame. split; apply Hdir; [by apply same_specs_sym|done].
Qed.

Lemma assign_by_sym_fault args c :
  assign_by_sym NullFaulting args c None = None ↔ reaches_kwarg args c.
Proof.
  rewrite assign_by_sym_find. unfold reaches_kwarg.
  destruct (list_find (symbol_option c) args) as [[i a]|] eqn:E; [|done].
  apply list_find_Some in E as (_ & [_ Ht] & _).
  unfold option_write. case_decide as Hf; simpl.
  - split; [done|congruence].
  - split; [intros _|done]. by destruct Ht.
Qed.

Lemma assign_cluster_fault arg : ∀ args,
  assign_cluster NullFaulting args arg None = None
  ↔ Exists (reaches_kwarg args) (String.list_ascii_of_string arg).
Proof.
  induction arg as [|c rest IH]; intros args; simpl.
  { rewrite Exists_nil. naive_solver. }
  rewrite Exists_cons.
  destruct (assign_by_sym NullFaulting args c None) as [args1|] eqn:Hstep.
  - simpl. rewrite IH.
    assert (Hsame : same_specs args args1).
    { apply assign_by_sym_rewrites in Hstep.
      by eapply (rewrites_same_specs (λ i, hit_sym args c = Some i)). }
    assert (Hc : ¬ reaches_kwarg args c).
    { intros Hr%assign_by_sym_fault. congruence. }
    split.
    + intros Hex. right. eapply Exists_impl; [exact Hex|].
      intros d; simpl. by rewrite (reaches_kwarg_same_specs _ _ d Hsame).
    + intros [?|Hex]; [done|]. eapply Exists_impl; [exact Hex|].
      intros d; simpl. by rewrite (reaches_kwarg_same_specs _ _ d Hsame).
  - simpl. split; [intros _; left; by apply assign_by_sym_fault|done].
Qed.

Lemma assign_names_fault args arg v :
  (args1 ← assign_by_name NullFaulting args arg v;
   assign_option_by_name NullFaulting args1 arg v) = None
  ↔ v = None ∧ is_Some (hit_name args arg).
Proof.
  rewrite assign_by_name_find. unfold hit_name.
  destruct (list_find (named arg) args) as [[i a]|] eqn:E; simpl.
  - destruct v as [t|]; simpl.
    + destruct (assign_option_by_name_safe NullFaulting
                  (<[i:=set_value a (Some t)]> args) arg (Some t)) as [? ->];
        [by right|].
      split; [done|]. by intros [? _].
    + split; [done|]. intros _. by eexists.
  - rewrite assign_option_by_name_find.
    assert (list_find (named_option arg) args = None) as ->.
    { apply list_find_None. apply list_find_None in E.
      eapply Forall_impl; [exact E|]. intros a Ha [Hn _]. by apply Ha. }
    split; [done|]. intros [_ [? ?]]. done.
Qed.

(** X6.  When the run faults.  Under a [strdup] that faults on a null
    pointer, a token faults exactly when it has no ['='] and, for a long
    or bare token, some entry carries its name, whatever the type of that
    entry, and, for a short token, some character of its cluster reaches
    a keyword argument. *)
Theorem token_fault_condition (args : list Argument) (out tok : string) :
  parse_token NullFaulting (args, out) tok = None
  ↔ token_value tok = None
    ∧ if is_short tok then
        Exists (reaches_kwarg args)
               (String.list_ascii_of_string (token_key tok))
      else is_Some (hit_name args (token_key tok)).
Proof.
  unfold parse_token, token_value, token_key, strip, is_short.
  destruct (shape tok) as [body|body|] eqn:Hs.
  - destruct (split_eq body) as [arg v]. simpl.
    rewrite <- assign_names_fault.
    destruct (assign_by_name NullFaulting args arg v) as [args1|]; simpl;
      [|done].
    by destruct (assign_option_by_name NullFaulting args1 arg v).
  - destruct (split_eq body) as [arg v]. simpl. destruct v as [t|].
    + destruct (assign_cluster_safe NullFaulting arg args (Some t))
        as [? ->]; [by right|]. simpl. split; [done|]. by intros [? _].
    + rewrite <- assign_cluster_fault.
      destruct (assign_cluster NullFaulting args arg None); simpl;
        [|done].
      split; [done|]. by intros [_ ?].
  - destruct (split_eq tok) as [arg v]. simpl.
    rewrite <- assign_names_fault.
    destruct (assign_by_name NullFaulting args arg v) as [args1|]; simpl;
      [|done].
    by destruct (assign_option_by_name NullFaulting args1 arg v).
Qed.

Lemma scan_tokens_safe libc toks : ∀ st,
  Forall (λ t, safe libc (token_value t)) toks →
  is_Some (scan_tokens libc st toks).
Proof.
  induction toks as [|t toks IH]; intros st Hs; simpl; [done|].
  apply Forall_cons in Hs as [Ht Hs].
  destruct (parse_token_safe libc st t Ht) as [st' ->]. simpl. by apply IH.
Qed.

(** X7.  A run in which every token carries an ['='], or that is linked
    with a [strdup] accepting a null pointer, never faults: [parse_args]
    returns or exits with the missing-argument message. *)
Theorem valued_tokens_never_fault (libc : Libc) (parser : ArgumentParser)
    (argv : list string) :
  Forall (λ t, libc = NullTolerant ∨ is_Some (token_value t)) (tail argv) →
  parse_args libc parser argv ≠ Undefined.
Proof.
  intros Hs. unfold parse_args.
  destruct (scan_tokens_safe libc (tail argv) (arguments parser, "") Hs)
    as [[args out] ->].
  by destruct (check_required args) as [args' [n|]].
Qed.

(** ** Which entries a token can write *)

Lemma hit_lookup P `{∀ a, Decision (P a)} (l : list Argument) i a :
  fst <$> list_find P l = Some i → l !! i = Some a → P a.
Proof.
  intros [b (Hi & Hb & _)%list_find_Some]%hit_Some Ha.
  by assert (b = a) as <- by congruence.
Qed.

(** A token writes an entry only through the entry's own name or symbol,
    and only if the entry is the first one a loop stops at. *)
Lemma matches_first args tok k b :
  matches args tok k → args !! k = Some b →
  hit_name args (name b) = Some k
  ∨ hit_option_name args (name b) = Some k
  ∨ (hit_sym args (sym b) = Some k ∧ is_short tok = true).
Proof.
  unfold matches. intros Hm Hk. destruct (is_short tok).
  - apply Exists_exists in Hm as (c & _ & Hc).
    destruct (hit_lookup (symbol_option c) _ _ _ Hc Hk) as [<- _]. auto.
  - destruct Hm as [Hn|Hn].
    + pose proof (hit_lookup (named _) _ _ _ Hn Hk) as Hb.
      unfold named in Hb. rewrite Hb. auto.
    + destruct (hit_lookup (named_option _) _ _ _ Hn Hk) as [Hb _].
      rewrite Hb. auto.
Qed.

(** X8.  The short symbol of a positional entry is never used for
    matching: whatever short tokens are scanned, a positional entry keeps
    the value it had. *)
Theorem short_tokens_skip_positionals (libc : Libc) (args : list Argument)
    (out : string) (toks : list string) (args' : list Argument)
    (out' : string) (i : nat) (a : Argument) :
  args !! i = Some a → type a = ARG →
  Forall (λ t, is_short t = true) toks →
  scan_tokens libc (args, out) toks = Some (args', out') →
  args' !! i = Some a.
Proof.
  intros Hi Ht Hshort Hscan.
  apply (scan_tokens_untouched _ _ _ _ _ _ _ _ Hscan Hi).
  eapply Forall_impl; [exact Hshort|]. intros t Hs Hm; simpl in *.
  unfold matches in Hm. rewrite Hs in Hm.
  apply Exists_exists in Hm as (c & _ & Hc).
  destruct (hit_lookup (symbol_option c) _ _ _ Hc Hi) as [_ [?|?]];
    congruence.
Qed.

(** X9.  A shadowed declaration is dead.  An entry that is neither the
    first entry of its name, nor the first flag-or-keyword entry of its
    name, nor the first flag-or-keyword entry of its symbol keeps its
    value through every scan that completes. *)
Theorem shadowed_entry_never_written (libc : Libc) (args : list Argument)
    (out : string) (toks : list string) (args' : list Argument)
    (out' : string) (k : nat) (b : Argument) :
  args !! k = Some b →
  hit_name args (name b) ≠ Some k →
  hit_option_name args (name b) ≠ Some k →
  hit_sym args (sym b) ≠ Some k →
  scan_tokens libc (args, out) toks = Some (args', out') →
  args' !! k = Some b.
Proof.
  intros Hk Hn Ho Hs Hscan.
  apply (scan_tokens_untouched _ _ _ _ _ _ _ _ Hscan Hk).
  apply Forall_forall. intros t _ Hm.
  destruct (matches_first _ _ _ _ Hm Hk) as [?|[?|[? _]]]; done.
Qed.

(** X10.  A flag declared without a default, holding no value and matched
    by no token reads as unset after a parse that returns. *)
Theorem unmentioned_flag_reads_false (libc : Libc) (parser : ArgumentParser)
    (argv : list string) (p' : ArgumentParser) (out : string) (i : nat)
    (a : Argument) :
  parse_args libc parser argv = Returned p' out →
  arguments parser !! i = Some a →
  type a = FLAG → value a = None → def_val a = None →
  hit_name (arguments parser) (name a) = Some i →
  Forall (λ t, ¬ matches (arguments parser) t i) (tail argv) →
  get_flag p' (name a) = 0%Z.
Proof.
  intros Hrun Hi Ht Hv Hd Hn Hno.
  pose proof (parse_args_same_specs _ _ _ _ _ Hrun) as Hsame.
  apply parse_args_Returned_inv in Hrun as (args1 & Hscan & _ & ->).
  pose proof (scan_tokens_untouched _ _ _ _ _ _ _ _ Hscan Hi Hno) as Hi1.
  unfold get_flag. simpl in *. rewrite lookup_flag_find.
  rewrite (first_named _ (name a) i (fill_default a)).
  - unfold fill_default. rewrite (decide_True (P := value a = None)) by done.
    simpl. rewrite decide_True by done. by rewrite Hd.
  - by rewrite (hit_name_same_specs _ _ _ Hsame).
  - by rewrite list_lookup_fmap, Hi1.
Qed.

(** X11.  A name answers to one kind of getter at most: if one getter
    finds a value under a name, the other two answer not-found for it. *)
Theorem getters_exclusive (parser : ArgumentParser) (n : string) :
  (get_flag parser n ≠ 0%Z →
   get_kwarg parser n = None ∧ get_arg parser n = None)
  ∧ (is_Some (get_kwarg parser n) →
     get_flag parser n = 0%Z ∧ get_arg parser n = None)
  ∧ (is_Some (get_arg parser n) →
     get_flag parser n = 0%Z ∧ get_kwarg parser n = None).
Proof.
  unfold get_flag, get_kwarg, get_arg.
  rewrite lookup_flag_find, lookup_kwarg_find, lookup_arg_find.
  destruct (list_find (named n) (arguments parser)) as [[i a]|].
  - destruct (type a); simpl; split_and!; intros H; try done;
      by destruct H.
  - split_and!; intros H; try done; by destruct H.
Qed.

(** ** Long and bare tokens with a value *)

Lemma named_token_parse libc parser argv0 tok n v i a :
  is_short tok = false → token_key tok = n → token_value tok = Some v →
  arguments parser !! i = Some a →
  hit_name (arguments parser) n = Some i →
  (∀ k c, arguments parser !! k = Some c → missing c → k = i) →
  ∃ p',
    parse_args libc parser [argv0; tok] = Returned p' (echo tok)
    ∧ arguments p' !! i = Some (set_value a (token_writes tok a))
    ∧ hit_name (arguments p') n = Some i.
Proof.
  intros Hs Hkey Hv Hi Hn Hmiss.
  assert (Hm : matches (arguments parser) tok i).
  { unfold matches. rewrite Hs, Hkey. by left. }
  destruct (parse_one_token libc parser argv0 tok v Hv)
    as (args' & Hrun & Hrw).
  { intros k c Hk Hc. by rewrite (Hmiss k c Hk Hc). }
  eexists. split; [exact Hrun|].
  pose proof (parse_args_same_specs _ _ _ _ _ Hrun) as Hsame.
  destruct Hrw as [_ Hrw]. destruct (Hrw i a Hi) as [Ha _].
  specialize (Ha Hm). simpl. split.
  - rewrite list_lookup_fmap, Ha. simpl. f_equal.
    apply (fill_default_valued _ (if decide (type a = FLAG) then "true"
                                  else v)).
    unfold token_writes. simpl. rewrite Hv. by case_decide.
  - by rewrite (hit_name_same_specs _ _ _ Hsame).
Qed.

Lemma named_token_getters p' tok n v i a :
  token_value tok = Some v →
  arguments p' !! i = Some (set_value a (token_writes tok a)) →
  hit_name (arguments p') n = Some i →
  (type a = KWARG → get_kwarg p' n = Some v)
  ∧ (type a = ARG → get_arg p' n = Some v)
  ∧ (type a = FLAG → get_flag p' n = 1%Z).
Proof.
  intros Hv Hi Hn. unfold get_kwarg, get_arg, get_flag.
  rewrite lookup_kwarg_find, lookup_arg_find, lookup_flag_find.
  rewrite (first_named _ _ _ _ Hn Hi). unfold token_writes, value_or_default.
  simpl. rewrite Hv.
  split_and!; intros Ht; rewrite Ht; simpl; by rewrite ?decide_True.
Qed.

(** X12.  The long form with a value reaches the first entry of the name,
    whatever its type.  After the single token "--n=v", on a table where
    no other entry is required and without a value, [parse_args] returns
    with nothing on standard output; [get_kwarg] answers [v] if that entry
    is a keyword argument, and [get_flag] answers [1] if it is a flag,
    the text [v] being dropped. *)
Theorem long_form_assigns (libc : Libc) (parser : ArgumentParser)
    (argv0 n v : string) (i : nat) (a : Argument) :
  arguments parser !! i = Some a →
  hit_name (arguments parser) n = Some i →
  plain n →
  (∀ k c, arguments parser !! k = Some c → missing c → k = i) →
  ∃ p',
    parse_args libc parser [argv0; "--" +:+ n +:+ "=" +:+ v] = Returned p' ""
    ∧ (type a = KWARG → get_kwarg p' n = Some v)
    ∧ (type a = FLAG →
       get_flag p' n = 1%Z
       ∧ (value <$> arguments p' !! i) = Some (Some "true")).
Proof.
  intros Hi Hn Hplain Hmiss.
  destruct (long_token n v Hplain) as (Hs & Hkey & Hv).
  destruct (named_token_parse libc parser argv0 _ n v i a Hs Hkey Hv Hi Hn
              Hmiss) as (p' & Hrun & Hat & Hn').
  exists p'. split; [exact Hrun|].
  destruct (named_token_getters p' _ n v i a Hv Hat Hn') as (Hk & _ & Hf).
  split; [done|]. intros Ht. split; [by apply Hf|].
  rewrite Hat. unfold token_writes. by rewrite decide_True.
Qed.

Lemma bare_token n v :
  is_bare n = true → plain n →
  is_bare (n +:+ "=" +:+ v) = true
  ∧ is_short (n +:+ "=" +:+ v) = false
  ∧ token_key (n +:+ "=" +:+ v) = n
  ∧ token_value (n +:+ "=" +:+ v) = Some v.
Proof.
  intros Hb Hplain.
  assert (Hbare : is_bare (n +:+ "=" +:+ v) = true).
  { apply is_bare_iff. intros rest Heq.
    destruct n as [|c r]; [done|].
    injection Heq as -> _. by apply (proj1 (is_bare_iff _) Hb r). }
  split; [done|].
  unfold is_short, token_key, token_value, strip. unfold is_bare in Hbare.
  destruct (shape (n +:+ "=" +:+ v)); try done.
  by rewrite (split_eq_key n v Hplain).
Qed.

(** X13.  The bare form.  A token "n=v" whose name does not start with
    ['-'] writes [n] to standard output and assigns [v] to the first entry
    named [n]: [get_arg] answers [v] for a positional entry, [get_kwarg]
    answers [v] for a keyword argument, and a flag reads as set. *)
Theorem bare_form_assigns (libc : Libc) (parser : ArgumentParser)
    (argv0 n v : string) (i : nat) (a : Argument) :
  arguments parser !! i = Some a →
  hit_name (arguments parser) n = Some i →
  is_bare n = true → plain n →
  (∀ k c, arguments parser !! k = Some c → missing c → k = i) →
  ∃ p',
    parse_args libc parser [argv0; n +:+ "=" +:+ v] = Returned p' n
    ∧ (type a = ARG → get_arg p' n = Some v)
    ∧ (type a = KWARG → get_kwarg p' n = Some v)
    ∧ (type a = FLAG → get_flag p' n = 1%Z).
Proof.
  intros Hi Hn Hb Hplain Hmiss.
  destruct (bare_token n v Hb Hplain) as (Hbare & Hs & Hkey & Hv).
  destruct (named_token_parse libc parser argv0 _ n v i a Hs Hkey Hv Hi Hn
              Hmiss) as (p' & Hrun & Hat & Hn').
  exists p'. split.
  - rewrite Hrun. unfold echo. by rewrite Hbare, Hkey.
  - destruct (named_token_getters p' _ n v i a Hv Hat Hn') as (Hk & Ha & Hf).
    by split_and!.
Qed.

(** ** Declarations and getters *)

Lemma lookup_kwarg_snoc l a m :
  name a ≠ m ∨ Exists (named m) l →
  lookup_kwarg (l ++ [a]) m = lookup_kwarg l m.
Proof.
  induction l as [|b l IH]; simpl; intros Hm.
  - destruct Hm as [Hm|Hm%Exists_nil]; [|done]. by rewrite decide_False.
  - case_decide as Hb; [done|]. apply IH.
    destruct Hm as [?|[?|?]%Exists_cons]; auto; done.
Qed.

Lemma lookup_arg_snoc l a m :
  name a ≠ m ∨ Exists (named m) l →
  lookup_arg (l ++ [a]) m = lookup_arg l m.
Proof.
  induction l as [|b l IH]; simpl; intros Hm.
  - destruct Hm as [Hm|Hm%Exists_nil]; [|done]. by rewrite decide_False.
  - case_decide as Hb; [done|]. apply IH.
    destruct Hm as [?|[?|?]%Exists_cons]; auto; done.
Qed.

Lemma lookup_flag_snoc l a m :
  name a ≠ m ∨ Exists (named m) l →
  lookup_flag (l ++ [a]) m = lookup_flag l m.
Proof.
  induction l as [|b l IH]; simpl; intros Hm.
  - destruct Hm as [Hm|Hm%Exists_nil]; [|done]. by rewrite decide_False.
  - case_decide as Hb; [done|]. apply IH.
    destruct Hm as [?|[?|?]%Exists_cons]; auto; done.
Qed.

Lemma lookup_snoc_fresh l a n :
  Forall (λ b, name b ≠ n) l → name a = n →
  list_find (named n) (l ++ [a]) = Some (length l, a).
Proof.
  intros Hfresh Ha. apply list_find_Some. split_and!.
  - by apply list_lookup_middle.
  - done.
  - intros j y Hj Hlt Hy. rewrite lookup_app_l in Hj by done.
    rewrite Forall_lookup in Hfresh. by apply (Hfresh j y).
Qed.

(** X14.  Declare, then read.  On a parser that does not hold the name
    yet, a getter called right after the declaration of its own kind
    answers the declared default ([0] for a flag); no parse is needed
    for the default to show. *)
Theorem declare_then_get (parser : ArgumentParser) (c : ascii) (n : string)
    (req nargs : Z) (d h : option string) :
  Forall (λ b, name b ≠ n) (arguments parser) →
  get_kwarg (add_kwarg parser c n req d h) n = d
  ∧ get_arg (add_arg parser c n req nargs d h) n = d
  ∧ get_flag (add_flag parser c n h) n = 0%Z.
Proof.
  intros Hfresh. unfold get_kwarg, get_arg, get_flag. simpl.
  rewrite lookup_kwarg_find, lookup_arg_find, lookup_flag_find.
  rewrite !(lookup_snoc_fresh _ _ n Hfresh) by done. done.
Qed.

(** X15.  The first declaration of a name wins.  Declaring a further
    entry, of any kind, changes no getter's answer for another name, nor
    for its own name when the parser already holds an entry of that
    name. *)
Theorem first_declaration_wins (parser : ArgumentParser) (c : ascii)
    (n m : string) (req nargs : Z) (d h : option string) :
  n ≠ m ∨ Exists (named m) (arguments parser) →
  Forall (λ p', get_flag p' m = get_flag parser m
                ∧ get_kwarg p' m = get_kwarg parser m
                ∧ get_arg p' m = get_arg parser m)
         [add_arg parser c n req nargs d h;
          add_kwarg parser c n req d h;
          add_flag parser c n h].
Proof.
  intros Hm. unfold get_flag, get_kwarg, get_arg.
  repeat apply Forall_cons_2; [..|apply Forall_nil_2]; simpl;
    by rewrite lookup_flag_snoc, lookup_kwarg_snoc, lookup_arg_snoc.
Qed.

(** ** Help output *)

Lemma print_entries_app l1 l2 :
  print_entries (l1 ++ l2) = print_entries l1 +:+ print_entries l2.
Proof.
  induction l1 as [|a l1 IH]; simpl; [done|].
  by rewrite IH, append_assoc.
Qed.

Lemma print_entries_same_specs l : ∀ l',
  same_specs l l' → print_entries l' = print_entries l.
Proof.
  induction l as [|a l IH]; intros [|b l'] [Hlen Hsame]; simplify_eq/=;
    [done|].
  destruct (Hsame 0 a eq_refl) as [w [= ->]].
  rewrite (IH l'); [done|]. split; [done|].
  intros i c Hi. apply (Hsame (S i) c Hi).
Qed.

(** X16.  Help does not depend on what was parsed.  The text of
    [print_help] on the parser that [parse_args] leaves, by return or at
    exit, is the text on the parser as declared, and the four switches of
    [print_help] change nothing. *)
Theorem help_unchanged_by_parse (libc : Libc) (parser : ArgumentParser)
    (argv : list string) (p' : ArgumentParser) :
  (∃ out, parse_args libc parser argv = Returned p' out)
  ∨ (∃ st out err, parse_args libc parser argv = Exited st p' out err) →
  ∀ d u e g d' u' e' g',
    print_help (Some p') d u e g = print_help (Some parser) d' u' e' g'.
Proof.
  intros [Hsame _]%parse_args_outcome_same_specs d u e g d' u' e' g'.
  unfold print_help. exact (print_entries_same_specs _ _ Hsame).
Qed.

Lemma or_char_stored c d : or_char (stored_sym c) d = stored_sym c.
Proof.
  unfold or_char, stored_sym.
  destruct (decide (c = "000"%char)) as [->|Hc]; [done|].
  by rewrite decide_False.
Qed.

(** X17.  Help grows with the declarations.  Each declaration appends one
    piece of text to what [print_help] writes and leaves the text before
    it as it was.  The piece shows the stored symbol, so an entry declared
    with symbol code [0] is listed under ['0']: the blank and NUL
    fall-backs of the three printers are never taken for a declared
    entry.  A flag line ends with a newline, a positional line with a
    space and a newline, a keyword piece with no newline at all. *)
Theorem help_of_declaration (parser : ArgumentParser) (c : ascii)
    (n : string) (req nargs : Z) (dv h : option string) (d u e g : Z) :
  print_help (Some (add_flag parser c n h)) d u e g
  = print_help (Some parser) d u e g
    +:+ "-" +:+ FT +:+ String (stored_sym c) "" +:+ NC +:+ "--" +:+ NT
    +:+ n +:+ " " +:+ NC +:+ CC +:+ ":" +:+ NC +:+ HT +:+ or_text h ""
    +:+ NC +:+ newline
  ∧ print_help (Some (add_kwarg parser c n req dv h)) d u e g
    = print_help (Some parser) d u e g
      +:+ "-" +:+ FT +:+ String (stored_sym c) "" +:+ NC +:+ "--" +:+ NT
      +:+ n +:+ " " +:+ NC +:+ CC +:+ ":" +:+ NC +:+ HT +:+ or_text h ""
      +:+ NC +:+ "[" +:+ NC +:+ HT +:+ or_text h "" +:+ NC +:+ "[" +:+ NC
      +:+ "required " +:+ NC +:+ CC +:+ ": " +:+ NC +:+ " " +:+ pretty req
      +:+ " , [" +:+ or_text dv "" +:+ "] ) "
  ∧ print_help (Some (add_arg parser c n req nargs dv h)) d u e g
    = print_help (Some parser) d u e g
      +:+ "-" +:+ String (stored_sym c) "" +:+ " --" +:+ n +:+ " "
      +:+ "(required: " +:+ pretty req +:+ " , [" +:+ or_text dv "None"
      +:+ "] ) " +:+ "= " +:+ or_text h "No description" +:+ " "
      +:+ newline.
Proof.
  unfold print_help, add_flag, add_kwarg, add_arg, append_argument,
    with_arguments.
  cbn [arguments]. rewrite !print_entries_app.
  cbn [print_entries].
  unfold help_text, flag_help_text, kwarg_help_text, arg_help_text.
  cbn [type sym name help def_val required].
  rewrite !or_char_stored, !append_empty_r, !append_assoc. done.
Qed.

(** X18.  Every declared name is in the help text, followed by a
    space. *)
Theorem help_mentions_names (parser : ArgumentParser) (a : Argument)
    (d u e g : Z) :
  a ∈ arguments parser →
  ∃ pre post,
    print_help (Some parser) d u e g = pre +:+ name a +:+ " " +:+ post.
Proof.
  intros (l1 & l2 & Hl)%list_elem_of_split. unfold print_help. rewrite Hl.
  rewrite print_entries_app. cbn [print_entries].
  unfold help_text, flag_help_text, kwarg_help_text, arg_help_text.
  destruct (type a).
  - exists (print_entries l1 +:+ "-" +:+ FT
            +:+ String (or_char (sym a) "000"%char) "" +:+ NC +:+ "--"
            +:+ NT),
           (NC +:+ (CC +:+ ":" +:+ NC +:+ HT +:+ or_text (help a) ""
                    +:+ NC +:+ newline) +:+ print_entries l2).
    by rewrite !append_assoc.
  - exists (print_entries l1 +:+ "-" +:+ FT
            +:+ String (or_char (sym a) "000"%char) "" +:+ NC +:+ "--"
            +:+ NT),
           (NC +:+ ((CC +:+ ":" +:+ NC +:+ HT +:+ or_text (help a) ""
                     +:+ NC)
                    +:+ ("[" +:+ NC +:+ HT +:+ or_text (help a) "" +:+ NC)
                    +:+ ("[" +:+ NC +:+ "required " +:+ NC +:+ CC +:+ ": "
                         +:+ NC +:+ " " +:+ pretty (required a) +:+ " , ["
                         +:+ or_text (def_val a) "" +:+ "] ) "))
            +:+ print_entries l2).
    by rewrite !append_assoc.
  - exists (print_entries l1 +:+ "-"
            +:+ String (or_char (sym a) " "%char) "" +:+ " --"),
           (("(required: " +:+ pretty (required a) +:+ " , ["
             +:+ or_text (def_val a) "None" +:+ "] ) ")
            +:+ ("= " +:+ or_text (help a) "No description" +:+ " "
                 +:+ newline)
            +:+ print_entries l2).
    by rewrite !append_assoc.
Qed.

(** ** Splitting and classifying tokens *)

(** X19.  Splitting loses nothing.  The text before the first ['='] holds
    no ['='], and gluing it back to the text after, with the ['='] when
    there was one, gives the token. *)
Theorem split_eq_spec (s : string) :
  plain (split_eq s).1
  ∧ s = (split_eq s).1
        +:+ match (split_eq s).2 with
            | Some v => "=" +:+ v
            | None => ""
            end.
Proof.
  unfold plain. induction s as [|c s [IHp IHs]]; simpl.
  { split; [apply not_elem_of_nil|done]. }
  destruct (decide (c = "="%char)) as [->|Hc]; simpl.
  { split; [apply not_elem_of_nil|done]. }
  destruct (split_eq s) as [k v]. simpl in *. split.
  - apply not_elem_of_cons. split; [congruence|done].
  - change (String c s = String c (k +:+ match v with
                                          | Some v0 => "=" +:+ v0
                                          | None => ""
                                          end)).
    by rewrite <- IHs.
Qed.

Lemma shape_other c rest : c ≠ "-"%char → shape (String c rest) = Bare.
Proof. intros Hc. by destruct c as [[] [] [] [] [] [] [] []]. Qed.

Lemma shape_dash_other c rest :
  c ≠ "-"%char →
  shape (String "-" (String c rest)) = Short (String c rest).
Proof. intros Hc. by destruct c as [[] [] [] [] [] [] [] []]. Qed.

(** X20.  The three branches follow the prefix.  A token takes the long
    branch exactly when it starts with "--", its body being the rest; the
    short branch exactly when it starts with one ['-'] not followed by
    another, its body being the rest; the bare branch exactly when it
    does not start with ['-'], the empty token included. *)
Theorem token_shapes (tok : string) :
  (∀ body, shape tok = Long body ↔ tok = "--" +:+ body)
  ∧ (∀ body, shape tok = Short body
             ↔ tok = "-" +:+ body ∧ ∀ r, body ≠ String "-" r)
  ∧ (shape tok = Bare ↔ ∀ r, tok ≠ String "-" r).
Proof.
  destruct tok as [|c rest].
  { split_and!; [intros body..|]; split; try done. by intros [? _]. }
  destruct (decide (c = "-"%char)) as [->|Hc].
  - destruct rest as [|c' rest'].
    { split_and!; [intros body..|].
      - split; done.
      - change ("-" +:+ body) with (String "-" body).
        split; [intros [= <-]; by split|by intros [[= <-] _]].
      - split; [done|]. intros Hno. by destruct (Hno ""). }
    destruct (decide (c' = "-"%char)) as [->|Hc'].
    + split_and!; [intros body..|].
      * change ("--" +:+ body) with (String "-" (String "-" body)).
        split; [by intros [= <-]|by intros [= <-]].
      * change ("-" +:+ body) with (String "-" body).
        split; [done|]. intros [[= <-] Hno]. by destruct (Hno rest').
      * split; [done|]. intros Hno. by destruct (Hno (String "-" rest')).
    + rewrite (shape_dash_other c' rest' Hc'). split_and!; [intros body..|].
      * change ("--" +:+ body) with (String "-" (String "-" body)).
        split; [done|]. by intros [= -> _].
      * change ("-" +:+ body) with (String "-" body).
        split; [intros [= <-]; split; [done|]; by intros r [= -> _]
               |by intros [[= <-] _]].
      * split; [done|]. intros Hno. by destruct (Hno (String c' rest')).
  - rewrite (shape_other c rest Hc). split_and!; [intros body..|].
    + change ("--" +:+ body) with (String "-" (String "-" body)).
      split; [done|]. by intros [= -> _].
    + change ("-" +:+ body) with (String "-" body).
      split; [done|]. by intros [[= -> _] _].
    + split; [|done]. intros _ r [= -> _]. done.
Qed.

(** ** Short tokens *)

Lemma short_token c v :
  c ≠ "-"%char → c ≠ "="%char →
  is_short (String "-" (String c ("=" +:+ v))) = true
  ∧ token_key (String "-" (String c ("=" +:+ v))) = String c ""
  ∧ token_value (String "-" (String c ("=" +:+ v))) = Some v.
Proof.
  intros Hd He. unfold is_short, token_key, token_value, strip.
  rewrite (shape_dash_other c _ Hd). simpl.
  by rewrite decide_False.
Qed.

(** X21.  One symbol with a value.  For a character [c] other than ['-']
    and ['='], the token "-c=v" reaches the first flag-or-keyword entry of
    symbol [c] and no other entry: a keyword argument takes [v], read back
    by [get_kwarg] when the entry is the first of its name, and a flag
    takes "true". *)
Theorem short_form_assigns (libc : Libc) (parser : ArgumentParser)
    (argv0 : string) (c : ascii) (v : string) (i : nat) (a : Argument) :
  c ≠ "-"%char → c ≠ "="%char →
  arguments parser !! i = Some a →
  hit_sym (arguments parser) c = Some i →
  (∀ k b, arguments parser !! k = Some b → missing b → k = i) →
  ∃ p',
    parse_args libc parser [argv0; String "-" (String c ("=" +:+ v))]
    = Returned p' ""
    ∧ arguments p' !! i
      = Some (set_value a (if decide (type a = FLAG) then Some "true"
                           else Some v))
    ∧ (∀ k b, k ≠ i → arguments parser !! k = Some b →
              arguments p' !! k = Some (fill_default b))
    ∧ (type a = KWARG → hit_name (arguments parser) (name a) = Some i →
       get_kwarg p' (name a) = Some v).
Proof.
  intros Hd He Hi Hc Hmiss.
  destruct (short_token c v Hd He) as (Hs & Hk & Hv).
  set (tok := String "-" (String c ("=" +:+ v))) in *.
  destruct (scan_one_token libc (arguments parser) tok)
    as (args' & Hscan & _).
  { right. by rewrite Hv. }
  assert (Hecho : echo tok = "").
  { unfold echo, is_bare. unfold is_short in Hs. by destruct (shape tok). }
  rewrite Hecho in Hscan.
  destruct (parse_one_symbol libc parser argv0 tok c args' _ i a Hs Hk Hscan
              Hi Hc) as (p' & Hrun & Hat & Hrest); [|done|].
  { unfold token_writes. rewrite Hv. by case_decide. }
  assert (Hw : token_writes tok a
               = if decide (type a = FLAG) then Some "true" else Some v).
  { unfold token_writes. by rewrite Hv. }
  rewrite Hw in Hat.
  exists p'. split_and!; [done..|]. intros Ht Hn.
  pose proof (parse_args_same_specs _ _ _ _ _ Hrun) as Hsame.
  unfold get_kwarg. rewrite decide_False in Hat by congruence.
  rewrite (lookup_kwarg_at _ _ i _ (eq_trans
             (hit_name_same_specs _ _ _ Hsame) Hn) Hat); done.
Qed.

Lemma short_token_fault args out tok :
  is_short tok = true → token_value tok = None →
  parse_token NullFaulting (args, out) tok = None →
  Exists (reaches_kwarg args) (String.list_ascii_of_string (token_key tok)).
Proof.
  unfold is_short, token_value, token_key, strip, parse_token.
  destruct (shape tok) as [body|body|]; try done.
  destruct (split_eq body) as [arg v]. simpl. intros _ -> Hstep.
  apply assign_cluster_fault.
  by destruct (assign_cluster NullFaulting args arg None).
Qed.

(** X22.  A cluster of flags.  A short token without ['='] none of whose
    characters reaches a keyword argument cannot fault, even under a
    [strdup] that faults on a null pointer, and it sets to "true" the
    value of every entry it matches: "-abc" switches on the flags behind
    ['a'], ['b'] and ['c'] in one token. *)
Theorem flag_cluster_sets_all (args : list Argument) (out tok : string) :
  is_short tok = true →
  token_value tok = None →
  ¬ Exists (reaches_kwarg args)
           (String.list_ascii_of_string (token_key tok)) →
  ∃ args',
    parse_token NullFaulting (args, out) tok = Some (args', out)
    ∧ ∀ i a, args !! i = Some a →
        (matches args tok i →
         args' !! i = Some (set_value a (Some "true"))
         ∧ (value <$> args' !! i) = Some (Some "true"))
        ∧ (¬ matches args tok i → args' !! i = Some a).
Proof.
  intros Hs Hv Hno.
  destruct (parse_token NullFaulting (args, out) tok) as [[args' out']|]
    eqn:Hstep.
  - pose proof Hstep as [[_ Hrw] Hout]%parse_token_effect.
    assert (Hecho : echo tok = "").
    { unfold echo, is_bare. unfold is_short in Hs. by destruct (shape tok). }
    rewrite Hecho, append_empty_r in Hout. subst out'.
    exists args'. split; [done|]. intros i a Hi.
    destruct (Hrw i a Hi) as [Hyes Hkeep]. split; [|done].
    intros Hm. rewrite (Hyes Hm).
    assert (Hw : token_writes tok a = Some "true"); [|by rewrite Hw].
    unfold token_writes. case_decide as Ht; [done|]. destruct Hno.
    unfold matches in Hm. rewrite Hs in Hm.
    eapply Exists_impl; [exact Hm|]. intros c Hc; simpl.
    pose proof (hit_lookup (symbol_option c) _ _ _ Hc Hi) as [_ Hty].
    apply hit_Some in Hc as [b Hb]. unfold reaches_kwarg. rewrite Hb.
    apply list_find_Some in Hb as (Hb & _ & _).
    assert (b = a) as -> by congruence. by destruct Hty.
  - destruct Hno. by apply (short_token_fault args out).
Qed.

(** X23.  Flags are sticky.  Once any token of the run has matched a
    flag, the flag holds "true" when [parse_args] returns, whatever the
    later tokens are: a matching token can only write "true" again, so
    no argument, "--flag=false" included, switches a flag off. *)
Theorem flags_are_sticky (libc : Libc) (parser : ArgumentParser)
    (argv : list string) (p' : ArgumentParser) (out : string) (i : nat)
    (a : Argument) :
  parse_args libc parser argv = Returned p' out →
  arguments parser !! i = Some a → type a = FLAG →
  hit_name (arguments parser) (name a) = Some i →
  Exists (λ t, matches (arguments parser) t i) (tail argv) →
  arguments p' !! i = Some (set_value a (Some "true"))
  ∧ get_flag p' (name a) = 1%Z.
Proof.
  intros Hrun Hi Ht Hn Hex.
  pose proof (parse_args_same_specs _ _ _ _ _ Hrun) as Hsame.
  apply parse_args_Returned_inv in Hrun as (args1 & Hscan & _ & ->).
  pose proof (flag_set_by_scan _ _ _ _ _ _ _ _ Hscan Hi Ht Hex) as Hset.
  assert (Hat : (fill_default <$> args1) !! i
                = Some (set_value a (Some "true"))).
  { by rewrite list_lookup_fmap, Hset. }
  split; [done|]. unfold get_flag. simpl in *.
  apply (lookup_flag_at _ _ i (set_value a (Some "true")) "true");
    [|done..].
  by rewrite (hit_name_same_specs _ _ _ Hsame).
Qed.

(** ** The further properties on sample tables *)

Lemma parse_keeps_declarations_witness :
  ∃ p' out,
    parse_args NullFaulting ab_parser ["p"; "-ab=X"] = Returned p' out
    ∧ program p' = program ab_parser ∧ usage p' = usage ab_parser
    ∧ epilog p' = epilog ab_parser ∧ description p' = description ab_parser
    ∧ parser_count p' = parser_count ab_parser
    ∧ ∀ i a, arguments ab_parser !! i = Some a →
        ∃ a', arguments p' !! i = Some a'
              ∧ name a' = name a ∧ sym a' = sym a
              ∧ required a' = required a ∧ help a' = help a
              ∧ type a' = type a ∧ count a' = count a
              ∧ def_val a' = def_val a.
Proof.
  eexists _, _. split; [reflexivity|].
  apply (parse_keeps_declarations NullFaulting ab_parser ["p"; "-ab=X"]).
  left. by eexists.
Defined.

Lemma returned_entries_resolved_witness :
  ∃ p' out,
    parse_args NullFaulting ab_parser ["p"; "-b=X"] = Returned p' out
    ∧ ∀ i a, arguments p' !! i = Some a →
        (required a ≠ 0%Z → is_Some (value a))
        ∧ (value a = None → def_val a = None).
Proof.
  eexists _, _. split; [reflexivity|].
  by apply (returned_entries_resolved NullFaulting ab_parser
              ["p"; "-b=X"] _ "").
Defined.

Lemma exit_means_missing_witness :
  ∃ st p' out err,
    parse_args NullFaulting ab_parser ["p"; "-a=X"] = Exited st p' out err
    ∧ st = EXIT_FAILURE
    ∧ ∃ i a,
        arguments p' !! i = Some a ∧ missing a
        ∧ (∀ j b, arguments p' !! j = Some b → j < i → ¬ missing b)
        ∧ err = "Missing required argument: " +:+ name a +:+ newline.
Proof.
  eexists _, _, _, _. split; [reflexivity|].
  by apply (exit_means_missing NullFaulting ab_parser ["p"; "-a=X"]
              _ _ "").
Defined.

Lemma reparse_is_stable_witness :
  ∃ p' out,
    parse_args NullFaulting ab_parser ["p"; "-b=X"] = Returned p' out
    ∧ ∀ libc' argv0, parse_args libc' p' [argv0] = Returned p' "".
Proof.
  eexists _, _. split; [reflexivity|].
  by apply (reparse_is_stable NullFaulting ab_parser ["p"; "-b=X"] _ "").
Defined.


Lemma token_fault_condition_witness :
  parse_token NullFaulting (arguments help_parser, "") "--help" = None
  ∧ parse_token NullFaulting (arguments default_name, "") "-xn" = None.
Proof.
  split.
  - apply (proj2 (token_fault_condition (arguments help_parser) ""
                    "--help")).
    split; [reflexivity|]. by eexists.
  - apply (proj2 (token_fault_condition (arguments default_name) "" "-xn")).
    split; [reflexivity|]. apply Exists_cons_tl, Exists_cons_hd. reflexivity.
Defined.

Lemma valued_tokens_never_fault_witness :
  parse_args NullFaulting help_parser ["p"; "--help=1"; "x=2"] ≠ Undefined.
Proof.
  apply valued_tokens_never_fault. simpl.
  repeat (apply Forall_cons_2; [right; by eexists|]). apply Forall_nil_2.
Defined.

Lemma short_tokens_skip_positionals_witness :
  scan_tokens NullFaulting (arguments output_parser, "") ["-o=file"; "-abc"]
  = Some (arguments output_parser, "")
  ∧ arguments output_parser !! 0 = Some output_entry.
Proof.
  split; [reflexivity|].
  apply (short_tokens_skip_positionals NullFaulting (arguments output_parser)
           "" ["-o=file"; "-abc"] (arguments output_parser) "" 0
           output_entry); try reflexivity.
  by repeat constructor.
Defined.

Lemma shadowed_entry_never_written_witness :
  ∃ args',
    scan_tokens NullFaulting (arguments twice_verbose, "")
      ["-v"; "--verbose=1"; "verbose=2"]
    = Some (args', "verbose")
    ∧ args' !! 1 = Some verbose_entry.
Proof.
  eexists. split; [reflexivity|].
  by apply (shadowed_entry_never_written NullFaulting
              (arguments twice_verbose) ""
              ["-v"; "--verbose=1"; "verbose=2"] _ "verbose" 1
              verbose_entry).
Defined.

Lemma unmentioned_flag_reads_false_witness :
  ∃ p' out,
    parse_args NullFaulting help_parser ["p"; "x=1"; "-q"] = Returned p' out
    ∧ get_flag p' (name help_entry) = 0%Z.
Proof.
  eexists _, _. split; [reflexivity|].
  apply (unmentioned_flag_reads_false NullFaulting help_parser
           ["p"; "x=1"; "-q"] _ "x" 0 help_entry); try reflexivity.
  repeat constructor; intros Hm; vm_compute in Hm;
    repeat match goal with
           | H : Exists _ _ |- _ => inversion H; clear H; subst
           | H : _ ∨ _ |- _ => destruct H
           end; discriminate.
Defined.

Lemma getters_exclusive_witness :
  get_kwarg (with_arguments help_parser
               [set_value help_entry (Some "true")]) "help" = None
  ∧ get_arg (with_arguments help_parser
               [set_value help_entry (Some "true")]) "help" = None.
Proof.
  by apply (proj1 (getters_exclusive
                     (with_arguments help_parser
                        [set_value help_entry (Some "true")]) "help")).
Defined.

Lemma plain_name : plain "name".
Proof.
  unfold plain. simpl. rewrite !not_elem_of_cons.
  split_and!; try discriminate. apply not_elem_of_nil.
Defined.

Lemma plain_output : plain "output".
Proof.
  unfold plain. simpl. rewrite !not_elem_of_cons.
  split_and!; try discriminate. apply not_elem_of_nil.
Defined.

Lemma long_form_assigns_witness :
  ∃ p',
    parse_args NullFaulting default_name
      ["p"; "--" +:+ "name" +:+ "=" +:+ "v"] = Returned p' ""
    ∧ (type name_entry = KWARG → get_kwarg p' "name" = Some "v")
    ∧ (type name_entry = FLAG →
       get_flag p' "name" = 1%Z
       ∧ (value <$> arguments p' !! 0) = Some (Some "true")).
Proof.
  apply (long_form_assigns NullFaulting default_name "p" "name" "v" 0
           name_entry); try reflexivity; [apply plain_name|].
  intros [|k] c Hk [Hreq _]; [done|]. by destruct k.
Defined.

Lemma bare_form_assigns_witness :
  ∃ p',
    parse_args NullFaulting output_parser
      ["p"; "output" +:+ "=" +:+ "file.txt"] = Returned p' "output"
    ∧ (type output_entry = ARG → get_arg p' "output" = Some "file.txt")
    ∧ (type output_entry = KWARG → get_kwarg p' "output" = Some "file.txt")
    ∧ (type output_entry = FLAG → get_flag p' "output" = 1%Z).
Proof.
  apply (bare_form_assigns NullFaulting output_parser "p" "output"
           "file.txt" 0 output_entry); try reflexivity; [apply plain_output|].
  intros [|k] c Hk _; [done|]. by destruct k.
Defined.

Lemma declare_then_get_witness :
  get_kwarg (add_kwarg help_parser "o" "output" 0 (Some "out.txt") None)
            "output" = Some "out.txt"
  ∧ get_arg (add_arg help_parser "o" "output" 0 1 (Some "out.txt") None)
            "output" = Some "out.txt"
  ∧ get_flag (add_flag help_parser "o" "output" None) "output" = 0%Z.
Proof.
  apply (declare_then_get help_parser "o" "output" 0 1 (Some "out.txt") None).
  by repeat constructor.
Defined.

Lemma first_declaration_wins_witness :
  Forall (λ p', get_flag p' "help" = get_flag help_parser "help"
                ∧ get_kwarg p' "help" = get_kwarg help_parser "help"
                ∧ get_arg p' "help" = get_arg help_parser "help")
         [add_arg help_parser "x" "help" 1 1 (Some "d") None;
          add_kwarg help_parser "x" "help" 1 (Some "d") None;
          add_flag help_parser "x" "help" None].
Proof.
  apply (first_declaration_wins help_parser "x" "help" "help" 1 1
           (Some "d") None).
  right. by apply Exists_cons_hd.
Defined.

Lemma help_unchanged_by_parse_witness :
  ∃ p' out,
    parse_args NullFaulting ab_parser ["p"; "-ab=X"] = Returned p' out
    ∧ ∀ d u e g d' u' e' g',
        print_help (Some p') d u e g = print_help (Some ab_parser) d' u' e' g'.
Proof.
  eexists _, _. split; [reflexivity|].
  apply (help_unchanged_by_parse NullFaulting ab_parser ["p"; "-ab=X"]).
  left. by eexists.
Defined.

Lemma help_mentions_names_witness :
  ∃ pre post,
    print_help (Some help_parser) 1 1 1 0
    = pre +:+ name help_entry +:+ " " +:+ post.
Proof.
  apply (help_mentions_names help_parser help_entry 1 1 1 0).
  apply list_elem_of_here.
Defined.

Lemma short_form_assigns_witness :
  ∃ p',
    parse_args NullFaulting default_name
      ["p"; String "-" (String "n" ("=" +:+ "v"))] = Returned p' ""
    ∧ arguments p' !! 0
      = Some (set_value name_entry
                (if decide (type name_entry = FLAG) then Some "true"
                 else Some "v"))
    ∧ (∀ k b, k ≠ 0 → arguments default_name !! k = Some b →
              arguments p' !! k = Some (fill_default b))
    ∧ (type name_entry = KWARG →
       hit_name (arguments default_name) (name name_entry) = Some 0 →
       get_kwarg p' (name name_entry) = Some "v").
Proof.
  apply (short_form_assigns NullFaulting default_name "p" "n" "v" 0
           name_entry); try reflexivity; try discriminate.
  intros [|k] c Hk [Hreq _]; [done|]. by destruct k.
Defined.

Lemma flag_cluster_sets_all_witness :
  ∃ args',
    parse_token NullFaulting (arguments flags_abc, "") "-cab"
    = Some (args', "")
    ∧ ∀ i a, arguments flags_abc !! i = Some a →
        (matches (arguments flags_abc) "-cab" i →
         args' !! i = Some (set_value a (Some "true"))
         ∧ (value <$> args' !! i) = Some (Some "true"))
        ∧ (¬ matches (arguments flags_abc) "-cab" i → args' !! i = Some a).
Proof.
  apply (flag_cluster_sets_all (arguments flags_abc) "" "-cab");
    try reflexivity.
  apply Forall_not_Exists.
  repeat constructor; intros Hr; vm_compute in Hr; discriminate.
Defined.

Lemma flags_are_sticky_witness :
  ∃ p' out,
    parse_args NullFaulting help_parser ["p"; "-h"; "--help=false"; "x=1"]
    = Returned p' out
    ∧ arguments p' !! 0 = Some (set_value help_entry (Some "true"))
    ∧ get_flag p' (name help_entry) = 1%Z.
Proof.
  eexists _, _. split; [reflexivity|].
  apply (flags_are_sticky NullFaulting help_parser
           ["p"; "-h"; "--help=false"; "x=1"] _ "x" 0 help_entry);
    try reflexivity.
  apply Exists_cons_hd. apply Exists_cons_hd. reflexivity.
Defined.
